(** * Kernel: dependency-ordered module orchestrator

    A shallow embedding of [src/Kernel.cpp] (graph construction, the
    Kahn-style topological sort, the registry operations and the
    two-thread start/stop protocol) together with the properties stated
    about it. *)

From stdpp Require Import base option list gmap sets strings relations.

(** ** Results of running a loop of the source

    [Stuck] stands for a run that does not come back with a value: a loop
    that exhausts the iteration budget of the model, or the dereference of
    an iterator or pointer that designates nothing.  The theorems below
    show it never happens. *)
Inductive run (A : Type) : Type :=
| Returned (a : A)
| Stuck.
Arguments Returned {A} a.
Arguments Stuck {A}.

#[global] Instance run_bind : MBind run := λ A B (k : A → run B) (r : run A),
  match r with
  | Returned a => k a
  | Stuck => Stuck
  end.

Definition deref {A} (o : option A) : run A :=
  match o with
  | Some a => Returned a
  | None => Stuck
  end.

(** ** Modules and the dependency graph *)

(** A [Kernel::Module*]: the address of a module object. *)
Abbreviation Mod := nat (only parsing).

(** [Vertex<Kernel::Module>]; a [Vertex*] is an index into the vector
    [moduleGraph], whose storage is reserved up front and never moves. *)
Record Vertex : Type := mkVertex {
  value : Mod;
  adjList : list nat
}.

Abbreviation Graph := (list Vertex) (only parsing).

(** [std::vector<std::tuple<Kernel::Module*, std::vector<std::string>>>] *)
Abbreviation Registry := (list (Mod * list string)) (only parsing).

(** ** Kernel state *)

(** [Kernel::Status] *)
Inductive Status : Type := IDLE | STARTING | RUNNING.

#[global] Instance Status_eq_dec : EqDecision Status.
Proof. solve_decision. Defined.

(** Levels of the logging collaborator, and one logged line (its format
    string). *)
Inductive Level : Type := LOG_DEBUG | LOG_WARNING | LOG_ERROR.
Abbreviation LogEntry := (Level * string)%type (only parsing).

(** [KernelImpl] (lines 133-152).  [kernelThread] tells whether the
    [unique_ptr] owns a thread object; such an object is never joined or
    detached before the destructor of [KernelImpl]. *)
Record KernelImpl : Type := mkKernelImpl {
  status : Status;
  modules : list Mod;
  modulesAndDependencies : list (Mod * list string);
  kernelThread : bool
}.

(** The constructor of [KernelImpl] (lines 134-140). *)
Definition new_kernel : KernelImpl := mkKernelImpl IDLE [] [] false.

(** [v[i].swap(v.back()); v.pop_back();] *)
Definition swap_pop {A} (i : nat) (v : list A) : list A :=
  match last v with
  | Some back => take (length v - 1) (<[i := back]> v)
  | None => v
  end.

(** Calls of the hooks of a module, as the worker makes them. *)
Inductive Hook : Type :=
| Init (m : Mod)
| Tick (m : Mod)
| Halt (m : Mod).

(** Program points of [KernelImpl::start]. *)
Inductive WorkerPc : Type :=
| WSort                      (* lines 159-163 *)
| WInit (todo : list Mod)    (* lines 169-171, then line 172 *)
| WWhile                     (* line 173 *)
| WTick (todo : list Mod)    (* lines 174-177 *)
| WHalt (todo : list Mod)    (* lines 179-181 *)
| WExit.

Record Worker : Type := mkWorker {
  wpc : WorkerPc;
  sortedModules : list Mod
}.

(** Program points of the controlling thread: inside [Kernel::start], back
    from it with its result [b], and back from it with [Kernel::stop]
    called since. *)
Inductive CallerPc : Type :=
| CStore                     (* line 269 *)
| CSpawn                     (* line 270 *)
| CPoll                      (* lines 272-274 *)
| CLoad                      (* line 275 *)
| CReturned (b : bool)
| CStopped (b : bool).

(** [terminated]: [std::terminate] was called; nothing runs afterwards. *)
Record Config : Type := mkConfig {
  impl : KernelImpl;
  worker : option Worker;
  caller : CallerPc;
  trace : list Hook;
  terminated : bool
}.

Definition set_status (st : Status) (c : Config) : Config :=
  mkConfig (mkKernelImpl st (modules (impl c)) (modulesAndDependencies (impl c))
              (kernelThread (impl c)))
           (worker c) (caller c) (trace c) (terminated c).

Definition set_worker (w : Worker) (c : Config) : Config :=
  mkConfig (impl c) (Some w) (caller c) (trace c) (terminated c).

Definition set_caller (pc : CallerPc) (c : Config) : Config :=
  mkConfig (impl c) (worker c) pc (trace c) (terminated c).

Definition emit (h : Hook) (c : Config) : Config :=
  mkConfig (impl c) (worker c) (caller c) (trace c ++ [h]) (terminated c).

Definition set_terminated (c : Config) : Config :=
  mkConfig (impl c) (worker c) (caller c) (trace c) true.

(** [kernelThread.reset(new std::thread(...))] when no thread object was
    owned before. *)
Definition spawn (c : Config) : Config :=
  mkConfig (mkKernelImpl (status (impl c)) (modules (impl c))
              (modulesAndDependencies (impl c)) true)
           (Some (mkWorker WSort [])) (caller c) (trace c) (terminated c).

(** The controlling thread enters [Kernel::start]. *)
Definition start_config (p : KernelImpl) : Config :=
  mkConfig p None CStore [] false.

(** A step of the controlling thread inside [Kernel::start], a step of the
    worker, or a call of [Kernel::stop] by whoever holds the kernel: the
    controlling thread once it is back, a hook through [Module::kernel()],
    or another thread. *)
Inductive Action : Type := ACaller | AWorker | AStop.

#[global] Instance Action_eq_dec : EqDecision Action.
Proof. solve_decision. Defined.

Definition inits (t : list Hook) : list Mod :=
  omap (λ h, match h with Init m => Some m | _ => None end) t.

Definition halts (t : list Hook) : list Mod :=
  omap (λ h, match h with Halt m => Some m | _ => None end) t.

(** ** Concrete modules used in the examples *)

(** Four module objects: three named A, B and C, and a second object
    named A. *)
Definition demo_name (m : nat) : string :=
  match m with 0 => "A" | 1 => "B" | 2 => "C" | 3 => "A" | _ => "D" end.

(** [vertices.begin()] the first element of the set, at every iteration. *)
Definition demo_sched (k : nat) : nat := 0.

(** An idle kernel, never started, holding the registry [mads]. *)
Definition demo_kernel (mads : list (nat * list string)) : KernelImpl :=
  {| status := IDLE; modules := mads.*1; modulesAndDependencies := mads;
     kernelThread := false |}.

(** B and C depend on A. *)
Definition demo_tree : list (nat * list string) :=
  [(0, []); (1, ["A"]); (2, ["A"])].

(** A depends on B and B on A. *)
Definition demo_cycle : list (nat * list string) :=
  [(0, ["B"]); (1, ["A"])].

(** A depends on a name that nobody has. *)
Definition demo_unknown : list (nat * list string) :=
  [(0, ["Z"])].

(** A schedule on which [Kernel::start] runs to its return while the
    worker takes [n] steps. *)
Definition demo_schedule (n : nat) : list Action :=
  [ACaller; ACaller] ++ replicate n AWorker ++ [ACaller; ACaller].

Section Kernel.

(** [module->name()]: the name is fixed when the object is constructed. *)
Variable name : Mod → string.

(** The element that [vertices.begin()] designates is not determined by the
    source; the [k]-th iteration of the main loop takes the element of rank
    [sched k] (modulo the size) of the current set. *)
Variable sched : nat → nat.

(** First loop of [createGraph] (lines 46-53). *)
Definition createGraph_register
    (st : gmap string Mod * gmap Mod nat * Graph) (module_dependencies : Mod * list string)
    : gmap string Mod * gmap Mod nat * Graph :=
  let '(moduleMap, vertexMap, moduleGraph) := st in
  let module := module_dependencies.1 in
  let moduleMap := <[name module := module]> moduleMap in
  let moduleGraph := moduleGraph ++ [mkVertex module []] in
  let vertexMap := <[module := length moduleGraph - 1]> vertexMap in
  (moduleMap, vertexMap, moduleGraph).

(** [dependency->adjList.push_back(vertex)] (line 64). *)
Definition push_adj (dependency vertex : nat) (moduleGraph : Graph) : Graph :=
  alter (λ v, mkVertex (value v) (adjList v ++ [vertex])) dependency moduleGraph.

(** Inner loop over the names of one module (lines 59-69); [None] is the
    [return false] of line 67. *)
Fixpoint createGraph_names (moduleMap : gmap string Mod) (vertexMap : gmap Mod nat)
    (vertex : nat) (names : list string) (moduleGraph : Graph) : run (option Graph) :=
  match names with
  | [] => Returned (Some moduleGraph)
  | nm :: names =>
      match moduleMap !! nm with
      | Some found =>
          dependency ← deref (vertexMap !! found);
          createGraph_names moduleMap vertexMap vertex names
            (push_adj dependency vertex moduleGraph)
      | None => Returned None
      end
  end.

(** Second loop of [createGraph] (lines 55-70). *)
Fixpoint createGraph_link (moduleMap : gmap string Mod) (vertexMap : gmap Mod nat)
    (modulesAndDependencies : Registry) (moduleGraph : Graph) : run (option Graph) :=
  match modulesAndDependencies with
  | [] => Returned (Some moduleGraph)
  | (module, names) :: rest =>
      vertex ← deref (vertexMap !! module);
      r ← createGraph_names moduleMap vertexMap vertex names moduleGraph;
      match r with
      | Some moduleGraph => createGraph_link moduleMap vertexMap rest moduleGraph
      | None => Returned None
      end
  end.

Definition createGraph (modulesAndDependencies : Registry) : run (option Graph) :=
  let '(moduleMap, vertexMap, moduleGraph) :=
    foldl createGraph_register (∅, ∅, []) modulesAndDependencies in
  createGraph_link moduleMap vertexMap modulesAndDependencies moduleGraph.

(** Lines 88-99: all vertices, minus every vertex found in an adjacency
    list. *)
Definition initial_vertices (moduleGraph : Graph) : gset nat :=
  foldl (λ vertices m, vertices ∖ {[ m ]})
        (list_to_set (seq 0 (length moduleGraph)))
        (moduleGraph ≫= adjList).

(** Lines 108-114: does [m] still occur in some adjacency list? *)
Definition referenced (moduleGraph : Graph) (m : nat) : bool :=
  existsb (λ o, existsb (λ p, bool_decide (m = p)) (adjList o)) moduleGraph.

(** Lines 107-119. *)
Definition release (moduleGraph : Graph) (vertices : gset nat) (adj : list nat) : gset nat :=
  foldl (λ vertices m, if referenced moduleGraph m then vertices else vertices ∪ {[ m ]})
        vertices adj.

(** [*vertices.begin()] *)
Definition begin_ (k : nat) (vertices : gset nat) : option nat :=
  elements vertices !! (sched k `mod` length (elements vertices)).

(** The main loop (lines 100-120); [k] counts the iterations made so far. *)
Fixpoint sort_loop (fuel k : nat) (moduleGraph : Graph) (vertices : gset nat)
    (sm : list Mod) : run (Graph * list Mod) :=
  if decide (vertices = ∅) then Returned (moduleGraph, sm) else
  match fuel with
  | 0 => Stuck
  | S fuel =>
      vertex ← deref (begin_ k vertices);
      v ← deref (moduleGraph !! vertex);
      let sm := sm ++ [value v] in
      let vertices := vertices ∖ {[ vertex ]} in
      let adj := adjList v in
      let moduleGraph := <[vertex := mkVertex (value v) []]> moduleGraph in
      sort_loop fuel (S k) moduleGraph (release moduleGraph vertices adj) sm
  end.

(** [sort] (lines 77-129): [Some sm] when it returns true with
    [*sortedModules = sm], [None] when it returns false. *)
Definition sort (modulesAndDependencies : Registry) : run (option (list Mod)) :=
  r ← createGraph modulesAndDependencies;
  match r with
  | None => Returned None
  | Some moduleGraph =>
      r ← sort_loop (length moduleGraph) 0 moduleGraph (initial_vertices moduleGraph) [];
      let '(moduleGraph, sm) := r in
      if forallb (λ m, bool_decide (adjList m = [])) moduleGraph
      then Returned (Some sm)
      else Returned None
  end.

(** ** The kernel object *)

(** [Kernel::find] (lines 254-262). *)
Definition find (modules : list Mod) (n : string) : option Mod :=
  snd <$> list_find (λ module, name module = n) modules.

(** [Kernel::add] (lines 209-225).  The back-reference [module->_kernel]
    written at line 220 is read by no function of the kernel and is left
    out of the state. *)
Definition add (module : Mod) (dependencies : list string) (p : KernelImpl)
    : bool * KernelImpl * list LogEntry :=
  if decide (status p ≠ IDLE)
  then (false, p, [(LOG_ERROR, "Kernel::add: Kernel is not idle")])
  else
    match find (modules p) (name module) with
    | Some _ => (false, p, [(LOG_WARNING, "Kernel::add: module '%s' already added")])
    | None =>
        (true,
         {| status := status p;
            modules := modules p ++ [module];
            modulesAndDependencies := modulesAndDependencies p ++ [(module, dependencies)];
            kernelThread := kernelThread p |},
         [(LOG_DEBUG, "Kernel::add: module '%s' added")])
    end.

(** [Kernel::remove] (lines 228-251): the module handed back, or [None] for
    [nullptr]. *)
Definition remove (n : string) (p : KernelImpl)
    : run (option Mod * KernelImpl * list LogEntry) :=
  if decide (status p ≠ IDLE)
  then Returned (None, p, [(LOG_ERROR, "Kernel::add: Kernel is not idle")])
  else
    match list_find (λ module, name module = n) (modules p) with
    | Some (i, module) =>
        md ← deref (modulesAndDependencies p !! i);
        let '(mad, log) :=
          if decide (name md.1 = n)
          then (swap_pop i (modulesAndDependencies p), [])
          else (modulesAndDependencies p,
                [(LOG_ERROR, "Kernel::remove: internal error: inconsistent module arrays")]) in
        Returned
          (Some module,
           {| status := status p;
              modules := swap_pop i (modules p);
              modulesAndDependencies := mad;
              kernelThread := kernelThread p |},
           log ++ [(LOG_DEBUG, "Kernel::remove: module '%s' removed")])
    | None =>
        Returned (None, p, [(LOG_WARNING, "Kernel::remove: Module '%s' not found")])
    end.

(** ** The controlling thread and the worker

    [status] is a [std::atomic] accessed with the default (sequentially
    consistent) ordering, so a run of the two threads is an interleaving of
    their steps and of the calls of [Kernel::stop].  A hook of a module is
    an opaque call recorded in the trace. *)

(** One step of the worker, [KernelImpl::start] (lines 155-183). *)
Definition KernelImpl_start (w : Worker) (c : Config) : Config :=
  match wpc w with
  | WSort =>
      match sort (modulesAndDependencies (impl c)) with
      | Stuck => c
      | Returned None =>
          set_worker (mkWorker WExit []) (set_status IDLE c)
      | Returned (Some sm) =>
          set_worker (mkWorker (WInit sm) sm) c
      end
  | WInit (m :: todo) =>
      set_worker (mkWorker (WInit todo) (sortedModules w)) (emit (Init m) c)
  | WInit [] =>
      set_worker (mkWorker WWhile (sortedModules w)) (set_status RUNNING c)
  | WWhile =>
      if decide (status (impl c) = RUNNING)
      then set_worker (mkWorker (WTick (sortedModules w)) (sortedModules w)) c
      else set_worker (mkWorker (WHalt (rev (sortedModules w))) (sortedModules w)) c
  | WTick (m :: todo) =>
      set_worker (mkWorker (WTick todo) (sortedModules w)) (emit (Tick m) c)
  | WTick [] =>
      set_worker (mkWorker WWhile (sortedModules w)) c
  | WHalt (m :: todo) =>
      set_worker (mkWorker (WHalt todo) (sortedModules w)) (emit (Halt m) c)
  | WHalt [] =>
      set_worker (mkWorker WExit (sortedModules w)) c
  | WExit => c
  end.

(** One step of the controlling thread inside [Kernel::start]
    (lines 265-276). *)
Definition Kernel_start (c : Config) : Config :=
  match caller c with
  | CStore => set_caller CSpawn (set_status STARTING c)
  | CSpawn =>
      if kernelThread (impl c)
      then set_terminated c
      else set_caller CPoll (spawn c)
  | CPoll =>
      if decide (status (impl c) = STARTING) then c else set_caller CLoad c
  | CLoad =>
      set_caller (CReturned (bool_decide (status (impl c) = RUNNING))) c
  | CReturned _ | CStopped _ => c
  end.

(** [Kernel::stop] (lines 279-283): the store of IDLE, at any time.  When
    the controlling thread is back from [Kernel::start], its program point
    records that the call was made. *)
Definition Kernel_stop (c : Config) : Config :=
  match caller c with
  | CReturned b | CStopped b => set_caller (CStopped b) (set_status IDLE c)
  | _ => set_status IDLE c
  end.

Definition step (a : Action) (c : Config) : Config :=
  if terminated c then c else
  match a with
  | ACaller => Kernel_start c
  | AWorker =>
      match worker c with
      | Some w => KernelImpl_start w c
      | None => c
      end
  | AStop => Kernel_stop c
  end.

Definition exec (s : list Action) (c : Config) : Config :=
  foldl (λ c a, step a c) c s.

(** ** Notions used to state the properties *)

(** Reading of a graph: the adjacency list and the module of vertex [j]. *)
Definition adj (g : Graph) (j : nat) : list nat :=
  from_option adjList [] (g !! j).

Definition val (g : Graph) (j : nat) : Mod :=
  from_option value 0 (g !! j).

(** Invariant 1 of the registry: module names are unique. *)
Definition names_unique (mads : Registry) : Prop :=
  NoDup (name <$> mads.*1).

(** Module [m] lists the name [nm] among its dependencies. *)
Definition declares (mads : Registry) (m : Mod) (nm : string) : Prop :=
  ∃ ds, (m, ds) ∈ mads ∧ nm ∈ ds.

(** Every declared dependency name is the name of a registered module. *)
Definition resolved (mads : Registry) : Prop :=
  ∀ m nm, declares mads m nm → ∃ d, d ∈ mads.*1 ∧ name d = nm.

(** Some declared dependency name is the name of no registered module. *)
Definition unresolved (mads : Registry) : Prop :=
  ∃ m nm, declares mads m nm ∧ ∀ d, d ∈ mads.*1 → name d ≠ nm.

(** [m] declares the registered module [d] as a dependency. *)
Definition depends_on (mads : Registry) (m d : Mod) : Prop :=
  d ∈ mads.*1 ∧ declares mads m (name d).

Definition acyclic (mads : Registry) : Prop :=
  ∀ m, ¬ tc (depends_on mads) m m.

Definition has_cycle (mads : Registry) : Prop :=
  ∃ m, tc (depends_on mads) m m.

(** [d] occurs strictly before [m] in [order]. *)
Definition before (order : list Mod) (d m : Mod) : Prop :=
  ∃ i j, order !! i = Some d ∧ order !! j = Some m ∧ i < j.

(** An order of all registered modules, each once, dependencies first. *)
Definition topological (mads : Registry) (order : list Mod) : Prop :=
  order ≡ₚ mads.*1 ∧ NoDup order ∧
  ∀ m d, depends_on mads m d → before order d m.

(** The two bookkeeping vectors of [KernelImpl] agree index by index. *)
Definition consistent (p : KernelImpl) : Prop :=
  (modulesAndDependencies p).*1 = modules p.

(** Two registries with the same modules in the same order whose
    dependency lists hold the same names, whatever the multiplicity. *)
Definition same_names (mads mads' : Registry) : Prop :=
  Forall2 (λ md md', md.1 = md'.1 ∧ ∀ nm, nm ∈ md.2 ↔ nm ∈ md'.2) mads mads'.

(** Modules registered by the first loop of [createGraph], by address
    only. *)
Definition register_modules
    (st : gmap string Mod * gmap Mod nat * Graph) (ms : list Mod)
    : gmap string Mod * gmap Mod nat * Graph :=
  foldl (λ st m, createGraph_register st (m, [])) st ms.

(** [g'] is [g] with the edges [E j x] (vertex [x] pushed on the list of
    vertex [j]) added. *)
Definition extends (g g' : Graph) (E : nat → nat → Prop) : Prop :=
  length g' = length g ∧
  (∀ j, val g' j = val g j) ∧
  (∀ j x, x ∈ adj g' j ↔ x ∈ adj g j ∨ (j < length g ∧ E j x)).

(** The edges that the second loop of [createGraph] adds for the entries
    [mads], read through the two lookup tables. *)
Definition link_edge (moduleMap : gmap string Mod) (vertexMap : gmap Mod nat)
    (mads : Registry) (j x : nat) : Prop :=
  ∃ m nm dm, declares mads m nm ∧ vertexMap !! m = Some x ∧
             moduleMap !! nm = Some dm ∧ vertexMap !! dm = Some j.

(** Every module of the name table has a vertex. *)
Definition tables_ok (moduleMap : gmap string Mod) (vertexMap : gmap Mod nat)
    (n : nat) : Prop :=
  ∀ nm dm, moduleMap !! nm = Some dm → ∃ j, vertexMap !! dm = Some j ∧ j < n.

(** Invariant of the main loop of [sort]: [g0] is the graph built by
    [createGraph], [done] the vertices output so far, in order. *)
Record loop_inv (g0 g : Graph) (vertices : gset nat) (done : list nat) : Prop := {
  li_nodup : NoDup done;
  li_bound : ∀ v, v ∈ done → v < length g0;
  li_length : length g = length g0;
  li_val : ∀ j, val g j = val g0 j;
  li_adj : ∀ j, adj g j = if decide (j ∈ done) then [] else adj g0 j;
  li_ready : ∀ v, v ∈ vertices → v < length g0 ∧ (v ∉ done) ∧ ∀ u, v ∉ adj g u;
  li_order : ∀ i v u, done !! i = Some v → v ∈ adj g0 u →
                      ∃ i', i' < i ∧ done !! i' = Some u;
  li_complete : ∀ v, v < length g0 → (∀ u, v ∉ adj g u) → v ∈ vertices ∨ v ∈ done
}.

(** What [createGraph] builds for the registry [mads]. *)
Record graph_of (mads : Registry) (g0 : Graph) : Prop := {
  go_length : length g0 = length mads;
  go_val : ∀ j, val g0 j = default 0 (mads.*1 !! j);
  go_bound : ∀ j x, x ∈ adj g0 j → x < length mads;
  go_sound : ∀ j x, x ∈ adj g0 j →
    ∃ m d, mads.*1 !! x = Some m ∧ mads.*1 !! j = Some d ∧ declares mads m (name d);
  go_complete : names_unique mads → ∀ j x m d,
    mads.*1 !! x = Some m → mads.*1 !! j = Some d → declares mads m (name d) →
    x ∈ adj g0 j
}.

(** Two graphs with the same vertices whose adjacency lists hold the same
    vertices, whatever the multiplicity. *)
Definition graph_equiv (g g' : Graph) : Prop :=
  length g = length g' ∧ (∀ j, val g j = val g' j) ∧
  ∀ j x, x ∈ adj g j ↔ x ∈ adj g' j.

(** ** Notions used for the two threads *)

(** The result of [Kernel::start], once the controlling thread is back. *)
Definition start_returned (c : Config) : option bool :=
  match caller c with
  | CReturned b | CStopped b => Some b
  | _ => None
  end.

Definition worker_exited (c : Config) : Prop :=
  ∃ w, worker c = Some w ∧ wpc w = WExit.

Definition count_action (a : Action) (s : list Action) : nat :=
  length (filter (λ a', a' = a) s).

(** A schedule that lets the controlling thread take two steps, then the
    worker [n] steps, then the controlling thread two steps, with any
    other steps in between. *)
Definition fair_start (n : nat) (s : list Action) : Prop :=
  ∃ s1 s2 s3, s = s1 ++ s2 ++ s3 ∧
    2 ≤ count_action ACaller s1 ∧
    n ≤ count_action AWorker s2 ∧
    2 ≤ count_action ACaller s3.

(** What holds while the worker is in its tick loop. *)
Definition ticking (p0 : KernelImpl) (c : Config) (w : Worker) : Prop :=
  sort (modulesAndDependencies p0) = Returned (Some (sortedModules w)) ∧
  inits (trace c) = sortedModules w ∧
  halts (trace c) = [] ∧
  status (impl c) ≠ STARTING.

(** Invariant of a run of [Kernel::start] on the kernel [p0], with calls of
    [Kernel::stop] at any time: by program point of the worker ... *)
Definition worker_ok (p0 : KernelImpl) (c : Config) (w : Worker) : Prop :=
  match wpc w with
  | WSort =>
      trace c = [] ∧ status (impl c) ≠ RUNNING
  | WInit todo =>
      sort (modulesAndDependencies p0) = Returned (Some (sortedModules w)) ∧
      (∃ dn, sortedModules w = dn ++ todo ∧ trace c = Init <$> dn) ∧
      status (impl c) ≠ RUNNING
  | WWhile => ticking p0 c w
  | WTick todo => ticking p0 c w ∧ ∃ dn, sortedModules w = dn ++ todo
  | WHalt todo =>
      sort (modulesAndDependencies p0) = Returned (Some (sortedModules w)) ∧
      inits (trace c) = sortedModules w ∧
      (∃ dn, rev (sortedModules w) = dn ++ todo ∧ halts (trace c) = dn) ∧
      status (impl c) = IDLE
  | WExit =>
      status (impl c) = IDLE ∧
      ((sort (modulesAndDependencies p0) = Returned None ∧ trace c = [])
       ∨ (sort (modulesAndDependencies p0) = Returned (Some (sortedModules w)) ∧
          inits (trace c) = sortedModules w ∧
          halts (trace c) = rev (sortedModules w)))
  end.

(** ... by program point of the controlling thread, once the worker
    exists ... *)
Definition caller_ok (p0 : KernelImpl) (c : Config) (w : Worker) : Prop :=
  match caller c with
  | CStore | CSpawn => False
  | CPoll => True
  | CLoad | CReturned false | CStopped false => status (impl c) ≠ STARTING
  | CReturned true => status (impl c) = RUNNING
  | CStopped true =>
      status (impl c) = IDLE ∧
      sort (modulesAndDependencies p0) = Returned (Some (sortedModules w)) ∧
      match wpc w with
      | WSort | WInit _ => False
      | _ => True
      end
  end.

(** ... and as a whole. *)
Definition start_inv (p0 : KernelImpl) (c : Config) : Prop :=
  terminated c = false ∧
  modulesAndDependencies (impl c) = modulesAndDependencies p0 ∧
  match worker c with
  | None =>
      trace c = [] ∧ kernelThread (impl c) = false ∧
      match caller c with
      | CStore => True
      | CSpawn => status (impl c) ≠ RUNNING
      | _ => False
      end
  | Some w => worker_ok p0 c w ∧ caller_ok p0 c w
  end.

(** What holds throughout a call of [Kernel::start] on a kernel that
    already owns a thread object: no worker is created, no hook is called,
    and the controlling thread gets no further than line 270, where
    destroying the thread object, still joinable, ends the process. *)
Definition restarting (c : Config) : Prop :=
  kernelThread (impl c) = true ∧ worker c = None ∧ trace c = [] ∧
  (caller c = CStore ∨ caller c = CSpawn).

(** What holds in addition as long as [Kernel::stop] is not called. *)
Definition quiet (p0 : KernelImpl) (c : Config) : Prop :=
  match caller c with
  | CStore => True
  | CSpawn | CPoll => True
  | CLoad => status (impl c) ≠ STARTING
  | CReturned b =>
      status (impl c) ≠ STARTING ∧ b = bool_decide (status (impl c) = RUNNING)
  | CStopped _ => False
  end ∧
  match worker c with
  | None => caller c = CSpawn → status (impl c) = STARTING
  | Some w =>
      match wpc w with
      | WSort | WInit _ => status (impl c) = STARTING
      | WWhile | WTick _ => status (impl c) = RUNNING
      | WHalt _ => False
      | WExit => sort (modulesAndDependencies p0) = Returned None
      end
  end.

(** Measures of progress of the two threads. *)
Definition caller_rank (c : Config) : nat :=
  match caller c with
  | CStore => 0
  | CSpawn => 1
  | CPoll => 2
  | CLoad => 3
  | CReturned _ | CStopped _ => 4
  end.

Definition init_rank (n : nat) (c : Config) : nat :=
  match worker c with
  | None => 0
  | Some w =>
      match wpc w with
      | WSort => 0
      | WInit todo => n + 1 - length todo
      | _ => n + 2
      end
  end.


(** Executable checks that imply [resolved] and [acyclic]: every declared
    name is found among the registered modules; every module named by a
    declaration has a smaller rank than the module declaring it. *)
Definition resolvedb (mads : Registry) : bool :=
  forallb (λ md : Mod * list string,
    forallb (λ nm, existsb (λ d, bool_decide (name d = nm)) mads.*1) md.2) mads.

Definition rankedb (rank : Mod → nat) (mads : Registry) : bool :=
  forallb (λ md : Mod * list string,
    forallb (λ nm,
      forallb (λ d, implb (bool_decide (name d = nm)) (bool_decide (rank d < rank md.1)))
              mads.*1) md.2) mads.

(** Invariant of a run of [Kernel::start] on an empty registry. *)
Definition empty_inv (c : Config) : Prop :=
  trace c = [] ∧ modulesAndDependencies (impl c) = [] ∧
  match worker c with
  | None => True
  | Some w =>
      sortedModules w = [] ∧
      match wpc w with
      | WInit todo | WTick todo | WHalt todo => todo = []
      | _ => True
      end
  end.

(** ** Notions used for the further properties *)

(** Number of edges of a graph, and number of dependency names written in
    a registry. *)
Definition edge_count (g : Graph) : nat := length (g ≫= adjList).

Definition name_count (mads : Registry) : nat := length (mads ≫= snd).

(** A call of [Kernel::add] or [Kernel::remove] by the controlling thread,
    and a sequence of such calls on a kernel. *)
Inductive Op : Type :=
| OpAdd (module : Mod) (dependencies : list string)
| OpRemove (n : string).

Definition apply_op (op : Op) (p : KernelImpl) : run KernelImpl :=
  match op with
  | OpAdd module dependencies => Returned (add module dependencies p).1.2
  | OpRemove n => r ← remove n p; Returned r.1.2
  end.

Fixpoint run_ops (ops : list Op) (p : KernelImpl) : run KernelImpl :=
  match ops with
  | [] => Returned p
  | op :: ops => p' ← apply_op op p; run_ops ops p'
  end.

(** The destructor of [KernelImpl] (lines 141-145) up to the call of
    [join]: the store of IDLE, then the dereference of [kernelThread]. *)
Definition KernelImpl_destroy (p : KernelImpl) : run KernelImpl :=
  let p := mkKernelImpl IDLE (modules p) (modulesAndDependencies p) (kernelThread p) in
  if kernelThread p then Returned p else Stuck.

(** [k] full passes over the sorted modules. *)
Definition passes (k : nat) (sm : list Mod) : list Mod :=
  concat (replicate k sm).

(** Shape of the trace of hook calls, by program point of the worker. *)
Definition trace_shape (c : Config) : Prop :=
  match worker c with
  | None => trace c = []
  | Some w =>
      let sm := sortedModules w in
      match wpc w with
      | WSort => trace c = []
      | WInit todo => ∃ dn, sm = dn ++ todo ∧ trace c = Init <$> dn
      | WWhile =>
          ∃ k, trace c = (Init <$> sm) ++ (Tick <$> passes k sm)
      | WTick todo =>
          ∃ k dn, sm = dn ++ todo ∧
                  trace c = (Init <$> sm) ++ (Tick <$> (passes k sm ++ dn))
      | WHalt todo =>
          ∃ k dn, rev sm = dn ++ todo ∧
                  trace c = (Init <$> sm) ++ (Tick <$> passes k sm) ++ (Halt <$> dn)
      | WExit =>
          trace c = [] ∨
          ∃ k, trace c = (Init <$> sm) ++ (Tick <$> passes k sm) ++ (Halt <$> rev sm)
      end
  end.

(** ** Graph construction *)

Lemma run_bind_returned {A B} (r : run A) (k : A → run B) b :
  (r ≫= k) = Returned b ↔ ∃ a, r = Returned a ∧ k a = Returned b.
Proof.
  destruct r as [a|]; simpl; split.
  - intros Hk. by exists a.
  - by intros (a' & [= <-] & Hk).
  - done.
  - by intros (a' & ? & _).
Qed.

Lemma createGraph_register_fold st mads :
  foldl createGraph_register st mads = register_modules st mads.*1.
Proof.
  revert st. induction mads as [|[m ds] mads IH]; intros st; [done|].
  simpl. rewrite IH. by destruct st as [[??]?].
Qed.

Lemma adj_lookup g j v : g !! j = Some v → adj g j = adjList v.
Proof. unfold adj. by intros ->. Qed.

Lemma adj_ge g j : length g ≤ j → adj g j = [].
Proof. intros Hj. unfold adj. by rewrite lookup_ge_None_2. Qed.

Lemma elem_of_adj_lt g j x : x ∈ adj g j → j < length g.
Proof.
  intros Hx. destruct (decide (j < length g)) as [|Hge]; [done|].
  rewrite adj_ge in Hx by lia. by apply elem_of_nil in Hx.
Qed.

(** The tables and the vertices after the first loop. *)
Lemma register_modules_spec ms :
  ∃ moduleMap vertexMap,
    register_modules (∅, ∅, []) ms
      = (moduleMap, vertexMap, (λ m, mkVertex m []) <$> ms) ∧
    (∀ nm dm, moduleMap !! nm = Some dm → dm ∈ ms ∧ name dm = nm) ∧
    (∀ m, m ∈ ms → is_Some (moduleMap !! name m)) ∧
    (∀ m i, vertexMap !! m = Some i → ms !! i = Some m) ∧
    (∀ m, m ∈ ms → is_Some (vertexMap !! m)) ∧
    (NoDup (name <$> ms) →
       (∀ m, m ∈ ms → moduleMap !! name m = Some m) ∧
       (∀ i m, ms !! i = Some m → vertexMap !! m = Some i)).
Proof.
  induction ms as [|m ms IH] using rev_ind.
  - exists ∅, ∅. split_and!; try done.
    + intros ? Hm. by apply elem_of_nil in Hm.
    + intros ? Hm. by apply elem_of_nil in Hm.
    + intros _. split; [|done]. intros ? Hm. by apply elem_of_nil in Hm.
  - destruct IH as (mm & vm & Hreg & Hmm & Hdom & Hvm & Hvdom & Huniq).
    exists (<[name m := m]> mm), (<[m := length ms]> vm).
    unfold register_modules in *. rewrite foldl_snoc, Hreg. simpl.
    rewrite fmap_app, !length_app, !length_fmap. simpl.
    replace (length ms + 1 - 1) with (length ms) by lia.
    split_and!; [done|..].
    + intros nm dm. rewrite lookup_insert. case_decide as Hnm.
      * intros [= <-]. split; [|done]. apply elem_of_app. right. by left.
      * intros Hl. apply Hmm in Hl as [? ?]. split; [|done].
        apply elem_of_app. by left.
    + intros m' Hm'. rewrite lookup_insert. case_decide; [by eexists|].
      apply elem_of_app in Hm' as [Hm'|Hm']; [by apply Hdom|].
      apply list_elem_of_singleton in Hm' as ->. done.
    + intros m' i. rewrite lookup_insert. case_decide as Hm'.
      * intros [= <-]. subst m'. by rewrite lookup_app_r, Nat.sub_diag by lia.
      * intros Hl. apply Hvm in Hl. by apply lookup_app_l_Some.
    + intros m' Hm'. rewrite lookup_insert. case_decide; [by eexists|].
      apply elem_of_app in Hm' as [Hm'|Hm']; [by apply Hvdom|].
      apply list_elem_of_singleton in Hm' as ->. done.
    + rewrite fmap_app. simpl. intros Hnd.
      apply NoDup_app in Hnd as (Hnd & Hfresh & _).
      destruct (Huniq Hnd) as [Hmm1 Hvm1]. split.
      * intros m' Hm'. rewrite lookup_insert. case_decide as Heq.
        -- apply elem_of_app in Hm' as [Hm'|Hm'].
           ++ exfalso. apply (Hfresh (name m')).
              ** apply list_elem_of_fmap. by exists m'.
              ** rewrite <- Heq. by left.
           ++ apply list_elem_of_singleton in Hm' as ->. done.
        -- apply elem_of_app in Hm' as [Hm'|Hm']; [by apply Hmm1|].
           apply list_elem_of_singleton in Hm' as ->. done.
      * intros i m' Hi. rewrite lookup_insert. case_decide as Heq.
        -- subst m'. apply lookup_app_Some in Hi as [Hi|[Hlen Hi]].
           ++ exfalso. apply (Hfresh (name m)).
              ** apply list_elem_of_fmap. exists m. split; [done|].
                 by eapply list_elem_of_lookup_2.
              ** by left.
           ++ apply list_lookup_singleton_Some in Hi as [Hi _].
              f_equal. lia.
        -- apply lookup_app_Some in Hi as [Hi|[Hlen Hi]]; [by apply Hvm1|].
           apply list_lookup_singleton_Some in Hi as [_ ->]. done.
Qed.

Lemma extends_refl g E : (∀ j x, ¬ E j x) → extends g g E.
Proof.
  intros HE. split_and!; [done..|]. intros j x. split; [by left|].
  intros [?|[_ HEjx]]; [done|]. by apply HE in HEjx.
Qed.

Lemma extends_trans g g' g'' E E' E'' :
  extends g g' E → extends g' g'' E' →
  (∀ j x, E'' j x ↔ E j x ∨ E' j x) →
  extends g g'' E''.
Proof.
  intros (Hl & Hv & Ha) (Hl' & Hv' & Ha') HE. split_and!.
  - congruence.
  - intros j. by rewrite Hv', Hv.
  - intros j x. rewrite Ha', Ha, HE, Hl. tauto.
Qed.

Lemma push_adj_extends g j x :
  j < length g → extends g (push_adj j x g) (λ j' x', j' = j ∧ x' = x).
Proof.
  intros Hj. unfold push_adj. split_and!.
  - by rewrite length_alter.
  - intros j'. unfold val. rewrite list_lookup_alter. case_decide; [|done].
    subst j'. by destruct (g !! j).
  - intros j' x'. unfold adj. rewrite list_lookup_alter. case_decide as Hjj'.
    + subst j'. destruct (lookup_lt_is_Some_2 g j Hj) as [v Hv].
      rewrite Hv. simpl. rewrite elem_of_app, list_elem_of_singleton. tauto.
    + split; [by left|]. by intros [?|[_ [? _]]].
Qed.

Lemma declares_cons m ds mads m' nm :
  declares ((m, ds) :: mads) m' nm ↔ (m' = m ∧ nm ∈ ds) ∨ declares mads m' nm.
Proof.
  unfold declares. split.
  - intros (ds' & Hin & Hnm). apply elem_of_cons in Hin as [[= -> ->]|Hin]; eauto.
  - intros [[-> Hnm]|(ds' & Hin & Hnm)].
    + exists ds. split; [by left|done].
    + exists ds'. split; [by right|done].
Qed.

Lemma declares_nil m nm : ¬ declares [] m nm.
Proof. intros (ds & Hin & _). by apply elem_of_nil in Hin. Qed.

(** The loop over the names of one module either adds one edge per name
    or stops at a name that the table does not hold. *)
Lemma createGraph_names_spec moduleMap vertexMap vertex names g :
  tables_ok moduleMap vertexMap (length g) →
  (∃ g', createGraph_names moduleMap vertexMap vertex names g = Returned (Some g') ∧
         (∀ nm, nm ∈ names → is_Some (moduleMap !! nm)) ∧
         extends g g' (λ j x, x = vertex ∧ ∃ nm dm, nm ∈ names ∧
                          moduleMap !! nm = Some dm ∧ vertexMap !! dm = Some j))
  ∨ (createGraph_names moduleMap vertexMap vertex names g = Returned None ∧
     ∃ nm, nm ∈ names ∧ moduleMap !! nm = None).
Proof.
  revert g. induction names as [|nm names IH]; intros g Hok.
  - left. exists g. split_and!; [done| |].
    + intros ? Hin. by apply elem_of_nil in Hin.
    + apply extends_refl. intros j x (_ & ? & ? & Hin & _). by apply elem_of_nil in Hin.
  - simpl. destruct (moduleMap !! nm) as [dm|] eqn:Hnm.
    + destruct (Hok _ _ Hnm) as (j & Hj & Hlt). rewrite Hj. simpl.
      pose proof (push_adj_extends g j vertex Hlt) as Hpush.
      destruct (IH (push_adj j vertex g)) as [(g' & Hrun & Hall & Hext)|(Hrun & nm' & Hin & Hnone)].
      * destruct Hpush as (Hl & _). by rewrite Hl.
      * left. exists g'. split_and!; [done| |].
        -- intros nm' Hin. apply elem_of_cons in Hin as [->|Hin]; [by eexists|by apply Hall].
        -- eapply extends_trans; [exact Hpush|exact Hext|].
           intros j' x. split.
           ++ intros (-> & nm' & dm' & Hin & Hnm' & Hj').
              apply elem_of_cons in Hin as [->|Hin].
              ** left. rewrite Hnm in Hnm'. injection Hnm' as <-.
                 rewrite Hj in Hj'. by injection Hj' as <-.
              ** right. split; [done|]. by exists nm', dm'.
           ++ intros [[-> ->]|(-> & nm' & dm' & Hin & Hnm' & Hj')].
              ** split; [done|]. exists nm, dm. split_and!; [by left|done..].
              ** split; [done|]. exists nm', dm'. split_and!; [by right|done..].
      * right. split; [done|]. exists nm'. split; [by right|done].
    + right. split; [done|]. exists nm. split; [by left|done].
Qed.

Lemma createGraph_link_spec moduleMap vertexMap mads g :
  tables_ok moduleMap vertexMap (length g) →
  (∀ m, m ∈ mads.*1 → is_Some (vertexMap !! m)) →
  (∃ g', createGraph_link moduleMap vertexMap mads g = Returned (Some g') ∧
         (∀ m nm, declares mads m nm → is_Some (moduleMap !! nm)) ∧
         extends g g' (link_edge moduleMap vertexMap mads))
  ∨ (createGraph_link moduleMap vertexMap mads g = Returned None ∧
     ∃ m nm, declares mads m nm ∧ moduleMap !! nm = None).
Proof.
  revert g. induction mads as [|[m ds] mads IH]; intros g Hok Hdom.
  - left. exists g. split_and!; [done| |].
    + intros ?? Hd. by apply declares_nil in Hd.
    + apply extends_refl. intros j x (? & ? & ? & Hd & _). by apply declares_nil in Hd.
  - simpl. destruct (Hdom m) as [vertex Hvertex]; [by left|].
    rewrite Hvertex. simpl.
    destruct (createGraph_names_spec moduleMap vertexMap vertex ds g Hok)
      as [(g1 & Hrun1 & Hall1 & Hext1)|(Hrun1 & nm & Hin & Hnone)].
    + rewrite Hrun1. simpl.
      destruct (IH g1) as [(g' & Hrun & Hall & Hext)|(Hrun & m' & nm & Hd & Hnone)].
      * destruct Hext1 as (Hl & _). by rewrite Hl.
      * intros m' Hm'. apply Hdom. by right.
      * left. exists g'. split_and!; [done| |].
        -- intros m' nm Hd. apply declares_cons in Hd as [[-> Hin]|Hd]; eauto.
        -- eapply extends_trans; [exact Hext1|exact Hext|].
           intros j x. unfold link_edge. split.
           ++ intros (m' & nm & dm & Hd & Hx & Hnm & Hj).
              apply declares_cons in Hd as [[-> Hin]|Hd].
              ** left. rewrite Hvertex in Hx. injection Hx as <-.
                 split; [done|]. by exists nm, dm.
              ** right. by exists m', nm, dm.
           ++ intros [(-> & nm & dm & Hin & Hnm & Hj)|(m' & nm & dm & Hd & Hx & Hnm & Hj)].
              ** exists m, nm, dm. split_and!; [|done..].
                 apply declares_cons. by left.
              ** exists m', nm, dm. split_and!; [|done..].
                 apply declares_cons. by right.
      * right. split; [done|]. exists m', nm. split; [|done].
        apply declares_cons. by right.
    + rewrite Hrun1. simpl. right. split; [done|]. exists m, nm. split; [|done].
      apply declares_cons. by left.
Qed.

Lemma createGraph_unfold mads moduleMap vertexMap g1 :
  register_modules (∅, ∅, []) mads.*1 = (moduleMap, vertexMap, g1) →
  createGraph mads = createGraph_link moduleMap vertexMap mads g1.
Proof. intros Hreg. unfold createGraph. by rewrite createGraph_register_fold, Hreg. Qed.

Lemma adj_fresh (ms : list Mod) j : adj ((λ m, mkVertex m []) <$> ms) j = [].
Proof. unfold adj. rewrite list_lookup_fmap. by destruct (ms !! j). Qed.

Lemma val_fresh (ms : list Mod) j :
  val ((λ m, mkVertex m []) <$> ms) j = default 0 (ms !! j).
Proof. unfold val. rewrite list_lookup_fmap. by destruct (ms !! j). Qed.

(** [createGraph] returns: with the graph of the registry when every name
    resolves, with [false] otherwise. *)
Lemma createGraph_cases mads :
  (∃ g0, createGraph mads = Returned (Some g0) ∧ resolved mads ∧ graph_of mads g0)
  ∨ (createGraph mads = Returned None ∧ unresolved mads).
Proof.
  destruct (register_modules_spec mads.*1)
    as (mm & vm & Hreg & Hmm & Hdom & Hvm & Hvdom & Huniq).
  rewrite (createGraph_unfold _ _ _ _ Hreg).
  assert (Hok : tables_ok mm vm (length ((λ m, mkVertex m []) <$> mads.*1))).
  { intros nm dm Hnm. apply Hmm in Hnm as [Hin _].
    destruct (Hvdom _ Hin) as [j Hj]. exists j. split; [done|].
    rewrite length_fmap. apply Hvm in Hj. by eapply lookup_lt_Some. }
  destruct (createGraph_link_spec mm vm mads _ Hok Hvdom)
    as [(g0 & Hrun & Hall & Hl & Hv & Ha)|(Hrun & m & nm & Hd & Hnone)].
  - left. exists g0. split_and!; [done| |].
    + intros m nm Hd. destruct (Hall _ _ Hd) as [dm Hdm].
      exists dm. by apply Hmm.
    + rewrite !length_fmap in Hl. split.
      * done.
      * intros j. by rewrite Hv, val_fresh.
      * intros j x. rewrite Ha, adj_fresh.
        intros [Hx|(_ & m & nm & dm & Hd & Hx & Hnm & Hj)];
          [by apply elem_of_nil in Hx|].
        apply Hvm in Hx. apply lookup_lt_Some in Hx. by rewrite length_fmap in Hx.
      * intros j x. rewrite Ha, adj_fresh.
        intros [Hx|(_ & m & nm & dm & Hd & Hx & Hnm & Hj)];
          [by apply elem_of_nil in Hx|].
        exists m, dm. apply Hmm in Hnm as [_ <-]. eauto.
      * intros Hnd j x m d Hx Hj Hd. rewrite Ha. right.
        destruct (Huniq Hnd) as [Hmm1 Hvm1]. split.
        -- rewrite !length_fmap. apply lookup_lt_Some in Hj.
           by rewrite length_fmap in Hj.
        -- exists m, (name d), d. split_and!; [done|by apply Hvm1| |by apply Hvm1].
           apply Hmm1. by eapply list_elem_of_lookup_2.
  - right. split; [done|]. exists m, nm. split; [done|].
    intros d Hin Heq. destruct (Hdom _ Hin) as [dm Hdm]. congruence.
Qed.

(** ** The main loop of [sort] *)

Lemma referenced_true g m : referenced g m = true ↔ ∃ u, m ∈ adj g u.
Proof.
  unfold referenced. rewrite existsb_exists. split.
  - intros (o & Ho & Hex). apply existsb_exists in Hex as (q & Hq & Hmq).
    apply bool_decide_eq_true in Hmq as <-.
    apply list_elem_of_In, list_elem_of_lookup in Ho as [u Hu].
    exists u. rewrite (adj_lookup _ _ _ Hu). by apply list_elem_of_In.
  - intros (u & Hm). unfold adj in Hm.
    destruct (g !! u) as [o|] eqn:Hu; [|by apply elem_of_nil in Hm].
    exists o. split.
    + apply list_elem_of_In. by eapply list_elem_of_lookup_2.
    + apply existsb_exists. exists m. split; [by apply list_elem_of_In|].
      by apply bool_decide_eq_true.
Qed.

Lemma referenced_false g m : referenced g m = false ↔ ∀ u, m ∉ adj g u.
Proof.
  rewrite <- not_true_iff_false, referenced_true. split.
  - intros Hno u Hu. apply Hno. by exists u.
  - intros Hno (u & Hu). by apply (Hno u).
Qed.

Lemma elem_of_release g vertices adjl x :
  x ∈ release g vertices adjl ↔
  x ∈ vertices ∨ (x ∈ adjl ∧ referenced g x = false).
Proof.
  unfold release. revert vertices.
  induction adjl as [|m adjl IH]; intros vertices; simpl.
  - split; [by left|]. intros [?|[Hx _]]; [done|]. by apply elem_of_nil in Hx.
  - rewrite IH, elem_of_cons. destruct (referenced g m) eqn:Href.
    + split; [tauto|]. intros [?|[[->|?] Hf]]; [tauto|congruence|tauto].
    + rewrite elem_of_union, elem_of_singleton. split.
      * intros [[?| ->]|[? ?]]; tauto.
      * intros [?|[[->|?] Hf]]; tauto.
Qed.

Lemma elem_of_erase_all (vertices : gset nat) (l : list nat) x :
  x ∈ foldl (λ vertices m, vertices ∖ {[ m ]}) vertices l ↔ x ∈ vertices ∧ x ∉ l.
Proof.
  revert vertices. induction l as [|m l IH]; intros vertices; simpl.
  - split; [|tauto]. intros Hx. split; [done|]. apply not_elem_of_nil.
  - rewrite IH, elem_of_difference, elem_of_singleton, not_elem_of_cons. tauto.
Qed.

Lemma elem_of_initial_vertices g x :
  x ∈ initial_vertices g ↔ x < length g ∧ ∀ u, x ∉ adj g u.
Proof.
  unfold initial_vertices.
  rewrite elem_of_erase_all, elem_of_list_to_set, elem_of_seq.
  split; intros [Hlt Hno]; (split; [lia|]).
  - intros u Hu. apply Hno. apply list_elem_of_bind. unfold adj in Hu.
    destruct (g !! u) as [o|] eqn:Ho; [|by apply elem_of_nil in Hu].
    exists o. split; [done|]. by eapply list_elem_of_lookup_2.
  - intros Hin. apply list_elem_of_bind in Hin as (o & Hx & Ho).
    apply list_elem_of_lookup in Ho as [u Hu].
    apply (Hno u). by rewrite (adj_lookup _ _ _ Hu).
Qed.

(** [vertices.begin()] designates an element of a set that is not empty. *)
Lemma begin_elem k (vertices : gset nat) :
  vertices ≠ ∅ → ∃ v, begin_ k vertices = Some v ∧ v ∈ vertices.
Proof.
  intros Hne. unfold begin_.
  assert (Hlen : length (elements vertices) ≠ 0).
  { intros Hl. apply Hne. apply leibniz_equiv, elements_empty_inv.
    by apply nil_length_inv. }
  destruct (lookup_lt_is_Some_2 (elements vertices)
              (sched k `mod` length (elements vertices))) as [v Hv].
  { by apply Nat.mod_upper_bound. }
  exists v. split; [done|]. apply elem_of_elements. by eapply list_elem_of_lookup_2.
Qed.

Lemma loop_inv_init g0 :
  (∀ j x, x ∈ adj g0 j → x < length g0) →
  loop_inv g0 g0 (initial_vertices g0) [].
Proof.
  intros Hb. split.
  - apply NoDup_nil_2.
  - intros v Hv. by apply elem_of_nil in Hv.
  - done.
  - done.
  - intros j. case_decide as Hj; [by apply elem_of_nil in Hj|done].
  - intros v Hv. apply elem_of_initial_vertices in Hv as [Hlt Hno].
    split_and!; [done|apply not_elem_of_nil|done].
  - intros i v u Hi. by rewrite lookup_nil in Hi.
  - intros v Hlt Hno. left. by apply elem_of_initial_vertices.
Qed.

(** Vertices already output are referenced by no remaining edge. *)
Lemma loop_inv_done_free g0 g vertices done v u :
  loop_inv g0 g vertices done → v ∈ done → v ∉ adj g u.
Proof.
  intros Hinv Hv Hu. rewrite (li_adj _ _ _ _ Hinv) in Hu.
  case_decide as Hdone; [by apply elem_of_nil in Hu|].
  apply list_elem_of_lookup in Hv as [i Hi].
  destruct (li_order _ _ _ _ Hinv i v u Hi Hu) as (i' & _ & Hi').
  apply Hdone. by eapply list_elem_of_lookup_2.
Qed.

Lemma length_bounded_nodup (l : list nat) n :
  NoDup l → (∀ x, x ∈ l → x < n) → length l ≤ n.
Proof.
  intros Hnd Hb. transitivity (length (seq 0 n)); [|by rewrite length_seq].
  apply submseteq_length, NoDup_submseteq; [done|].
  intros x Hx. apply elem_of_seq. specialize (Hb x Hx). lia.
Qed.

Lemma adj_clear g vertex a j :
  vertex < length g →
  adj (<[vertex := mkVertex a []]> g) j = if decide (j = vertex) then [] else adj g j.
Proof.
  intros Hlt. unfold adj. case_decide as Hj.
  - subst j. by rewrite list_lookup_insert_eq.
  - by rewrite list_lookup_insert_ne.
Qed.

Lemma val_clear g vertex v j :
  g !! vertex = Some v →
  val (<[vertex := mkVertex (value v) []]> g) j = val g j.
Proof.
  intros Hv. unfold val. destruct (decide (j = vertex)) as [->|Hj].
  - rewrite list_lookup_insert_eq by (by eapply lookup_lt_Some). by rewrite Hv.
  - by rewrite list_lookup_insert_ne.
Qed.

(** One iteration of the main loop keeps the invariant. *)
Lemma loop_inv_step g0 g vertices done vertex v :
  (∀ j x, x ∈ adj g0 j → x < length g0) →
  loop_inv g0 g vertices done →
  vertex ∈ vertices →
  g !! vertex = Some v →
  loop_inv g0 (<[vertex := mkVertex (value v) []]> g)
    (release (<[vertex := mkVertex (value v) []]> g) (vertices ∖ {[ vertex ]}) (adjList v))
    (done ++ [vertex]).
Proof.
  intros Hb Hinv Hin Hv.
  destruct (li_ready _ _ _ _ Hinv _ Hin) as (Hlt & Hfresh & Hfree).
  assert (Hltg : vertex < length g) by (by rewrite (li_length _ _ _ _ Hinv)).
  assert (Hadjv : adjList v = adj g0 vertex).
  { rewrite <- (adj_lookup _ _ _ Hv), (li_adj _ _ _ _ Hinv). by rewrite decide_False. }
  assert (Hsub : ∀ u x, x ∈ adj (<[vertex := mkVertex (value v) []]> g) u → x ∈ adj g u).
  { intros u x. rewrite adj_clear by done. case_decide; [|done].
    intros Hx. by apply elem_of_nil in Hx. }
  split.
  - apply NoDup_app. split_and!.
    + apply (li_nodup _ _ _ _ Hinv).
    + intros x Hx Hx'. apply list_elem_of_singleton in Hx'. by subst x.
    + apply NoDup_singleton.
  - intros x Hx. apply elem_of_app in Hx as [Hx|Hx].
    + by apply (li_bound _ _ _ _ Hinv).
    + apply list_elem_of_singleton in Hx. by subst x.
  - rewrite length_insert. apply (li_length _ _ _ _ Hinv).
  - intros j. rewrite (val_clear _ _ _ _ Hv). apply (li_val _ _ _ _ Hinv).
  - intros j. rewrite adj_clear by done. case_decide as Hj.
    + subst j. rewrite decide_True; [done|]. apply elem_of_app. right. by left.
    + rewrite (li_adj _ _ _ _ Hinv).
      case_decide as Hold; case_decide as Hnew; try done.
      * exfalso. apply Hnew. apply elem_of_app. by left.
      * exfalso. apply elem_of_app in Hnew as [?|Hx]; [done|].
        apply list_elem_of_singleton in Hx. done.
  - intros x Hx. apply elem_of_release in Hx as [Hx|[Hx Href]].
    + apply elem_of_difference in Hx as [Hx Hne].
      rewrite elem_of_singleton in Hne.
      destruct (li_ready _ _ _ _ Hinv _ Hx) as (Hxlt & Hxfresh & Hxfree).
      split_and!; [done| |].
      * intros Hx'. apply elem_of_app in Hx' as [?|Hx']; [done|].
        by apply list_elem_of_singleton in Hx'.
      * intros u Hu. by apply (Hxfree u), Hsub.
    + rewrite Hadjv in Hx. split_and!.
      * by eapply Hb.
      * intros Hx'. apply elem_of_app in Hx' as [Hx'|Hx'].
        -- eapply (loop_inv_done_free _ _ _ _ x vertex Hinv Hx').
           rewrite (li_adj _ _ _ _ Hinv). by rewrite decide_False.
        -- apply list_elem_of_singleton in Hx'. subst x.
           apply (Hfree vertex). rewrite (li_adj _ _ _ _ Hinv). by rewrite decide_False.
      * by apply referenced_false.
  - intros i x u Hi Hx. apply lookup_app_Some in Hi as [Hi|[Hlen Hi]].
    + destruct (li_order _ _ _ _ Hinv i x u Hi Hx) as (i' & Hlt' & Hi').
      exists i'. split; [done|]. by apply lookup_app_l_Some.
    + apply list_lookup_singleton_Some in Hi as [Hi0 <-].
      destruct (decide (u ∈ done)) as [Hu|Hu].
      * apply list_elem_of_lookup in Hu as [i' Hi'].
        exists i'. split; [|by apply lookup_app_l_Some].
        apply lookup_lt_Some in Hi'. lia.
      * exfalso. apply (Hfree u). rewrite (li_adj _ _ _ _ Hinv). by rewrite decide_False.
  - intros x Hxlt Hxfree. destruct (referenced g x) eqn:Href.
    + apply referenced_true in Href as [u Hu].
      destruct (decide (u = vertex)) as [->|Hne].
      * left. apply elem_of_release. right. split; [|by apply referenced_false].
        by rewrite <- (adj_lookup _ _ _ Hv).
      * exfalso. apply (Hxfree u). rewrite adj_clear by done. by rewrite decide_False.
    + rewrite referenced_false in Href.
      destruct (li_complete _ _ _ _ Hinv x Hxlt Href) as [Hx|Hx].
      * destruct (decide (x = vertex)) as [->|Hne].
        -- right. apply elem_of_app. right. by left.
        -- left. apply elem_of_release. left. apply elem_of_difference.
           split; [done|]. by rewrite elem_of_singleton.
      * right. apply elem_of_app. by left.
Qed.

(** The main loop comes back, with the invariant and no vertex left in
    the set, whenever its budget covers the vertices not yet output. *)
Lemma sort_loop_spec g0 fuel k g vertices done :
  (∀ j x, x ∈ adj g0 j → x < length g0) →
  loop_inv g0 g vertices done →
  length g0 ≤ fuel + length done →
  ∃ g' done',
    sort_loop fuel k g vertices (val g0 <$> done) = Returned (g', val g0 <$> done') ∧
    loop_inv g0 g' ∅ done'.
Proof.
  intros Hb. revert k g vertices done.
  induction fuel as [|fuel IH]; intros k g vertices done Hinv Hfuel; simpl.
  - case_decide as Hempty; [subst; by exists g, done|].
    exfalso. destruct (begin_elem k vertices Hempty) as (vertex & _ & Hin).
    destruct (li_ready _ _ _ _ Hinv _ Hin) as (Hlt & Hfresh & _).
    assert (length (vertex :: done) ≤ length g0) as Hlen.
    { apply length_bounded_nodup.
      - apply NoDup_cons. split; [done|apply (li_nodup _ _ _ _ Hinv)].
      - intros x Hx. apply elem_of_cons in Hx as [->|Hx]; [done|].
        by apply (li_bound _ _ _ _ Hinv). }
    simpl in Hlen. lia.
  - case_decide as Hempty; [subst; by exists g, done|].
    destruct (begin_elem k vertices Hempty) as (vertex & Hbegin & Hin).
    rewrite Hbegin. simpl.
    destruct (li_ready _ _ _ _ Hinv _ Hin) as (Hlt & Hfresh & _).
    destruct (lookup_lt_is_Some_2 g vertex) as [v Hv].
    { by rewrite (li_length _ _ _ _ Hinv). }
    rewrite Hv. simpl.
    assert (Hval : value v = val g0 vertex).
    { rewrite <- (li_val _ _ _ _ Hinv). unfold val. by rewrite Hv. }
    rewrite Hval.
    replace ((val g0 <$> done) ++ [val g0 vertex]) with (val g0 <$> (done ++ [vertex]))
      by (by rewrite fmap_app).
    rewrite <- Hval. apply IH.
    + by apply loop_inv_step.
    + rewrite length_app. simpl. lia.
Qed.

(** ** Finite relations without cycles *)

(** In a finite set, following a decidable relation without cycles ends at
    an element with no successor in the set. *)
Lemma sink_exists {A} (R : relation A) `{!∀ x y, Decision (R x y)} n (l : list A) x :
  (∀ z, ¬ tc R z z) → length l ≤ n → NoDup l → x ∈ l →
  ∃ m, m ∈ l ∧ rtc R x m ∧ ∀ y, y ∈ l → ¬ R m y.
Proof.
  intros Hirr. revert l x. induction n as [|n IH]; intros l x Hlen Hnd Hx.
  - assert (l = []) as -> by (apply nil_length_inv; lia). by apply elem_of_nil in Hx.
  - destruct (decide (Exists (R x) l)) as [Hex|Hnone].
    + apply Exists_exists in Hex as (y & Hy & Hxy).
      apply elem_of_Permutation in Hx as [l0 Hperm].
      rewrite Hperm in Hnd. apply NoDup_cons in Hnd as [Hxl0 Hnd0].
      assert (Hyl0 : y ∈ l0).
      { rewrite Hperm in Hy. apply elem_of_cons in Hy as [->|Hy]; [|done].
        exfalso. apply (Hirr x). by apply tc_once. }
      destruct (IH l0 y) as (m & Hm & Hym & Hsink); [|done..|].
      { rewrite Hperm in Hlen. simpl in Hlen. lia. }
      exists m. split_and!.
      * rewrite Hperm. by right.
      * by eapply rtc_l.
      * intros z Hz Hmz. rewrite Hperm in Hz.
        apply elem_of_cons in Hz as [->|Hz]; [|by apply (Hsink z)].
        apply (Hirr x). eapply tc_rtc_r; [by apply tc_once|].
        eapply rtc_r; done.
    + exists x. split_and!; [done..|].
      intros y Hy Hxy. apply Hnone, Exists_exists. by exists y.
Qed.

Lemma no_descent {A} (R : relation A) `{!∀ x y, Decision (R x y)} (l : list A) :
  (∀ z, ¬ tc R z z) → NoDup l →
  (∀ x, x ∈ l → ∃ y, y ∈ l ∧ R x y) → l = [].
Proof.
  intros Hirr Hnd Hsucc. destruct l as [|x l]; [done|]. exfalso.
  destruct (sink_exists R (length (x :: l)) (x :: l) x) as (m & Hm & _ & Hsink);
    [done..|by left|].
  destruct (Hsucc m Hm) as (y & Hy & Hmy). by apply (Hsink y).
Qed.

(** ** Orders *)

Lemma before_trans order a b c :
  NoDup order → before order a b → before order b c → before order a c.
Proof.
  intros Hnd (i & j & Hi & Hj & Hij) (j' & k & Hj' & Hk & Hjk).
  assert (j = j') as <- by (by eapply NoDup_lookup).
  exists i, k. split_and!; [done..|lia].
Qed.

Lemma before_irrefl order a : NoDup order → ¬ before order a a.
Proof.
  intros Hnd (i & j & Hi & Hj & Hij).
  assert (i = j) by (by eapply NoDup_lookup). lia.
Qed.

(** An order that puts every dependency first rules out a cycle. *)
Lemma topological_acyclic mads order :
  topological mads order → acyclic mads.
Proof.
  intros (_ & Hnd & Hdep) m Hcyc.
  assert (Hall : ∀ a b, tc (depends_on mads) a b → before order b a).
  { intros a b Hab. induction Hab as [a b Hab|a b c Hab _ IH].
    - by apply Hdep.
    - eapply before_trans; [done|exact IH|by apply Hdep]. }
  by eapply before_irrefl, Hall.
Qed.

Lemma resolved_unresolved mads : resolved mads → unresolved mads → False.
Proof.
  intros Hres (m & nm & Hd & Hno). destruct (Hres _ _ Hd) as (d & Hin & Hnm).
  by apply (Hno d).
Qed.

(** ** [sort] *)

Lemma check_empty_true (g : Graph) :
  forallb (λ m, bool_decide (adjList m = [])) g = true ↔ ∀ j, adj g j = [].
Proof.
  rewrite forallb_forall. split.
  - intros Hall j. unfold adj. destruct (g !! j) as [v|] eqn:Hv; [|done].
    simpl. eapply bool_decide_eq_true, Hall, list_elem_of_In, list_elem_of_lookup_2, Hv.
  - intros Hall v Hv. apply bool_decide_eq_true.
    apply list_elem_of_In, list_elem_of_lookup in Hv as [j Hj].
    by rewrite <- (adj_lookup _ _ _ Hj).
Qed.

(** How a call of [sort] goes: [createGraph] fails on a name that does not
    resolve, or the loop runs to the end and the final scan decides. *)
Lemma sort_cases mads :
  (sort mads = Returned None ∧ unresolved mads)
  ∨ (∃ g0 g dn,
       resolved mads ∧ graph_of mads g0 ∧ loop_inv g0 g ∅ dn ∧
       sort mads =
         Returned (if forallb (λ m, bool_decide (adjList m = [])) g
                   then Some (val g0 <$> dn) else None)).
Proof.
  unfold sort.
  destruct (createGraph_cases mads) as [(g0 & -> & Hres & Hg)|[-> Hun]]; simpl.
  - right.
    assert (Hb : ∀ j x, x ∈ adj g0 j → x < length g0).
    { intros j x Hx. rewrite (go_length _ _ Hg). by eapply (go_bound _ _ Hg). }
    destruct (sort_loop_spec g0 (length g0) 0 g0 (initial_vertices g0) [])
      as (g & dn & Hrun & Hinv); [done|by apply loop_inv_init|simpl; lia|].
    simpl in Hrun. rewrite Hrun. simpl.
    exists g0, g, dn. split_and!; [done..|].
    by destruct (forallb _ g).
  - by left.
Qed.

(** [sort] always comes back. *)
Lemma sort_returns mads : ∃ r, sort mads = Returned r.
Proof.
  destruct (sort_cases mads) as [[-> _]|(g0 & g & dn & _ & _ & _ & ->)]; eauto.
Qed.

Lemma val_seq mads g0 :
  graph_of mads g0 → val g0 <$> seq 0 (length g0) = mads.*1.
Proof.
  intros Hg. apply list_eq. intros j. rewrite list_lookup_fmap.
  destruct (decide (j < length g0)) as [Hj|Hj].
  - rewrite lookup_seq_lt by done. simpl. rewrite (go_val _ _ Hg).
    rewrite (go_length _ _ Hg) in Hj.
    destruct (lookup_lt_is_Some_2 mads.*1 j) as [m Hm]; [by rewrite length_fmap|].
    by rewrite Hm.
  - rewrite lookup_seq_ge by lia. simpl. symmetry. apply lookup_ge_None_2.
    rewrite length_fmap, <- (go_length _ _ Hg). lia.
Qed.

(** When the final scan finds every adjacency list empty, every vertex has
    been output. *)
Lemma loop_inv_all_done g0 g dn :
  loop_inv g0 g ∅ dn → (∀ j, adj g j = []) → dn ≡ₚ seq 0 (length g0).
Proof.
  intros Hinv Hempty. apply NoDup_Permutation.
  - apply (li_nodup _ _ _ _ Hinv).
  - apply NoDup_seq.
  - intros v. rewrite elem_of_seq. split.
    + intros Hv. apply (li_bound _ _ _ _ Hinv) in Hv. lia.
    + intros [_ Hv]. destruct (li_complete _ _ _ _ Hinv v) as [Hin|Hin]; [lia| | |done].
      * intros u. rewrite Hempty. apply not_elem_of_nil.
      * by apply elem_of_empty in Hin.
Qed.

(** Soundness: an order returned by [sort] holds every registered module
    once, dependencies first. *)
Lemma sort_sound mads order :
  names_unique mads → sort mads = Returned (Some order) → topological mads order.
Proof.
  intros Huniq Hsort.
  destruct (sort_cases mads) as [[Hnone _]|(g0 & g & dn & Hres & Hg & Hinv & Hrun)];
    [congruence|].
  rewrite Hrun in Hsort.
  destruct (forallb _ g) eqn:Hcheck; [|done]. injection Hsort as <-.
  pose proof (loop_inv_all_done _ _ _ Hinv (proj1 (check_empty_true g) Hcheck)) as Hperm.
  assert (Hord : val g0 <$> dn ≡ₚ mads.*1).
  { rewrite Hperm. by rewrite (val_seq _ _ Hg). }
  assert (Hnd : NoDup mads.*1) by (by eapply NoDup_fmap_1).
  split_and!; [done|by rewrite Hord|].
  intros m d [Hd (ds & Hin & Hnm)].
  apply list_elem_of_lookup in Hd as [j Hj].
  apply list_elem_of_lookup in Hin as [x Hx].
  assert (Hxm : mads.*1 !! x = Some m) by (by rewrite list_lookup_fmap, Hx).
  assert (Hedge : x ∈ adj g0 j).
  { eapply (go_complete _ _ Hg); [done..|]. by exists ds; split;
      [eapply list_elem_of_lookup_2|]. }
  assert (Hxdone : x ∈ dn).
  { rewrite Hperm. apply elem_of_seq. apply lookup_lt_Some in Hx.
    rewrite (go_length _ _ Hg). lia. }
  apply list_elem_of_lookup in Hxdone as [i Hi].
  destruct (li_order _ _ _ _ Hinv i x j Hi Hedge) as (i' & Hlt & Hi').
  exists i', i. split_and!; [| |done].
  - rewrite list_lookup_fmap, Hi'. simpl. by rewrite (go_val _ _ Hg), Hj.
  - rewrite list_lookup_fmap, Hi. simpl. by rewrite (go_val _ _ Hg), Hxm.
Qed.

(** Completeness: when every name resolves and no cycle exists, the final
    scan of [sort] finds nothing left. *)
Lemma sort_complete mads :
  resolved mads → acyclic mads → ∃ order, sort mads = Returned (Some order).
Proof.
  intros Hres Hacyc.
  destruct (sort_cases mads) as [[_ Hun]|(g0 & g & dn & _ & Hg & Hinv & Hrun)].
  { exfalso. by eapply resolved_unresolved. }
  rewrite Hrun. destruct (forallb _ g) eqn:Hcheck; [by eexists|]. exfalso.
  apply not_true_iff_false in Hcheck. apply Hcheck, check_empty_true.
  set (R := λ v u : nat, v ∈ adj g0 u).
  assert (HdecR : ∀ x y, Decision (R x y)) by (intros x y; unfold R; apply _).
  assert (Hirr : ∀ z, ¬ tc R z z).
  { intros z Hz. apply (Hacyc (default 0 (mads.*1 !! z))).
    eapply (tc_congruence (λ j, default 0 (mads.*1 !! j))); [|exact Hz].
    intros v u Hvu. destruct (go_sound _ _ Hg _ _ Hvu) as (m & d & Hm & Hd & Hdecl).
    rewrite Hm, Hd. simpl. split; [|done]. by eapply list_elem_of_lookup_2. }
  assert (Hleft : filter (λ v, v ∉ dn) (seq 0 (length g0)) = []).
  { apply (no_descent R); [done|apply NoDup_filter, NoDup_seq|].
    intros v Hv. apply list_elem_of_filter in Hv as [Hvd Hvlt].
    apply elem_of_seq in Hvlt as [_ Hvlt]. simpl in Hvlt.
    destruct (referenced g v) eqn:Href.
    - apply referenced_true in Href as [u Hu].
      pose proof (elem_of_adj_lt _ _ _ Hu) as Hult.
      rewrite (li_length _ _ _ _ Hinv) in Hult.
      rewrite (li_adj _ _ _ _ Hinv) in Hu.
      case_decide as Hud; [by apply elem_of_nil in Hu|].
      exists u. split; [|done]. apply list_elem_of_filter. split; [done|].
      apply elem_of_seq. lia.
    - rewrite referenced_false in Href.
      destruct (li_complete _ _ _ _ Hinv v Hvlt Href) as [Hin|Hin]; [|done].
      by apply elem_of_empty in Hin. }
  intros j. rewrite (li_adj _ _ _ _ Hinv). case_decide as Hjd; [done|].
  destruct (adj g0 j) as [|x l] eqn:Hadj; [done|]. exfalso.
  assert (Hj : j ∈ filter (λ v, v ∉ dn) (seq 0 (length g0))).
  { apply list_elem_of_filter. split; [done|]. apply elem_of_seq.
    assert (x ∈ adj g0 j) as Hx by (rewrite Hadj; by left).
    apply elem_of_adj_lt in Hx. lia. }
  rewrite Hleft in Hj. by apply elem_of_nil in Hj.
Qed.

(** ** Multiplicity of dependency names *)

Lemma graph_equiv_lookup g g' j v :
  graph_equiv g g' → g !! j = Some v →
  ∃ v', g' !! j = Some v' ∧ value v' = value v ∧ ∀ x, x ∈ adjList v' ↔ x ∈ adjList v.
Proof.
  intros (Hl & Hv & Ha) Hj.
  destruct (lookup_lt_is_Some_2 g' j) as [v' Hj'].
  { rewrite <- Hl. by eapply lookup_lt_Some. }
  exists v'. split_and!; [done| |].
  - specialize (Hv j). unfold val in Hv. by rewrite Hj, Hj' in Hv.
  - intros x. specialize (Ha j x).
    by rewrite (adj_lookup _ _ _ Hj), (adj_lookup _ _ _ Hj') in Ha.
Qed.

Lemma graph_equiv_referenced g g' m :
  graph_equiv g g' → referenced g m = referenced g' m.
Proof.
  intros (_ & _ & Ha). apply eq_true_iff_eq. rewrite !referenced_true.
  split; intros [u Hu]; exists u; by apply Ha.
Qed.

Lemma graph_equiv_release g g' vertices adjl adjl' :
  graph_equiv g g' → (∀ x, x ∈ adjl' ↔ x ∈ adjl) →
  release g vertices adjl = release g' vertices adjl'.
Proof.
  intros Hg Hadj. apply set_eq. intros x.
  by rewrite !elem_of_release, Hadj, (graph_equiv_referenced g g' x Hg).
Qed.

Lemma graph_equiv_initial g g' :
  graph_equiv g g' → initial_vertices g = initial_vertices g'.
Proof.
  intros (Hl & _ & Ha). apply set_eq. intros x.
  rewrite !elem_of_initial_vertices, Hl.
  split; intros [Hlt Hno]; (split; [done|]); intros u Hu; apply (Hno u); by apply Ha.
Qed.

Lemma graph_equiv_clear g g' vertex v v' :
  graph_equiv g g' → g !! vertex = Some v → g' !! vertex = Some v' →
  graph_equiv (<[vertex := mkVertex (value v) []]> g)
              (<[vertex := mkVertex (value v') []]> g').
Proof.
  intros (Hl & Hv & Ha) Hj Hj'. split_and!.
  - by rewrite !length_insert.
  - intros j. by rewrite (val_clear _ _ _ _ Hj), (val_clear _ _ _ _ Hj').
  - intros j x. rewrite !adj_clear by (by eapply lookup_lt_Some).
    case_decide; [done|apply Ha].
Qed.

Lemma graph_equiv_check g g' :
  graph_equiv g g' →
  forallb (λ m, bool_decide (adjList m = [])) g
  = forallb (λ m, bool_decide (adjList m = [])) g'.
Proof.
  intros (_ & _ & Ha). apply eq_true_iff_eq. rewrite !check_empty_true.
  split; intros Hall j; apply elem_of_nil_inv; intros x Hx;
    apply Ha in Hx; rewrite Hall in Hx; by apply elem_of_nil in Hx.
Qed.

(** On equivalent graphs the main loop makes the same choices. *)
Lemma sort_loop_equiv fuel k g g' vertices sm :
  graph_equiv g g' →
  match sort_loop fuel k g vertices sm, sort_loop fuel k g' vertices sm with
  | Returned (g1, sm1), Returned (g1', sm1') => graph_equiv g1 g1' ∧ sm1 = sm1'
  | Stuck, Stuck => True
  | _, _ => False
  end.
Proof.
  revert k g g' vertices sm.
  induction fuel as [|fuel IH]; intros k g g' vertices sm Hg; simpl.
  - by case_decide.
  - case_decide; [done|].
    destruct (begin_ k vertices) as [vertex|]; simpl; [|done].
    destruct (g !! vertex) as [v|] eqn:Hv; simpl.
    + destruct (graph_equiv_lookup _ _ _ _ Hg Hv) as (v' & Hv' & Hval & Hadj).
      rewrite Hv'. simpl.
      pose proof (graph_equiv_clear _ _ _ _ _ Hg Hv Hv') as Hclear.
      rewrite Hval in Hclear |- *.
      rewrite (graph_equiv_release _ _ _ _ (adjList v') Hclear Hadj).
      by apply IH.
    + destruct Hg as (Hl & _ & _). apply lookup_ge_None_1 in Hv.
      rewrite lookup_ge_None_2 by lia. done.
Qed.

Lemma same_names_modules mads mads' : same_names mads mads' → mads.*1 = mads'.*1.
Proof.
  induction 1 as [|[m ds] [m' ds'] mads mads' [Hm _] _ IH]; [done|].
  rewrite !fmap_cons. simpl in *. by rewrite Hm, IH.
Qed.

Lemma same_names_declares mads mads' m nm :
  same_names mads mads' → declares mads m nm ↔ declares mads' m nm.
Proof.
  induction 1 as [|[m0 ds] [m0' ds'] mads mads' [Hm Hds] _ IH].
  - split; intros Hd; by apply declares_nil in Hd.
  - simpl in *. subst m0'. rewrite !declares_cons, IH, Hds. done.
Qed.

Lemma createGraph_same_names mads mads' :
  same_names mads mads' →
  match createGraph mads, createGraph mads' with
  | Returned (Some g), Returned (Some g') => graph_equiv g g'
  | Returned None, Returned None => True
  | _, _ => False
  end.
Proof.
  intros Hsame.
  pose proof (same_names_modules _ _ Hsame) as Hms.
  destruct (register_modules_spec mads.*1)
    as (mm & vm & Hreg & Hmm & Hdom & Hvm & Hvdom & Huniq).
  rewrite (createGraph_unfold mads _ _ _ Hreg).
  rewrite (createGraph_unfold mads' mm vm ((λ m, mkVertex m []) <$> mads.*1))
    by (by rewrite <- Hms).
  assert (Hok : tables_ok mm vm (length ((λ m, mkVertex m []) <$> mads.*1))).
  { intros nm dm Hnm. apply Hmm in Hnm as [Hin _].
    destruct (Hvdom _ Hin) as [j Hj]. exists j. split; [done|].
    rewrite length_fmap. apply Hvm in Hj. by eapply lookup_lt_Some. }
  destruct (createGraph_link_spec mm vm mads _ Hok Hvdom)
    as [(g & -> & Hall & Hl & Hv & Ha)|(-> & m & nm & Hd & Hnone)];
  (destruct (createGraph_link_spec mm vm mads' _ Hok)
    as [(g' & -> & Hall' & Hl' & Hv' & Ha')|(-> & m' & nm' & Hd' & Hnone')];
    [by rewrite <- Hms|..]).
  - split_and!.
    + congruence.
    + intros j. by rewrite Hv, Hv'.
    + intros j x. rewrite Ha, Ha'. unfold link_edge.
      split; (intros [?|(Hlt & m & nm & dm & Hd & Hrest)]; [by left|right]);
        (split; [done|]); exists m, nm, dm; (split; [|done]);
        by apply (same_names_declares mads mads' m nm Hsame).
  - apply (same_names_declares mads mads' m' nm' Hsame) in Hd'.
    destruct (Hall _ _ Hd') as [? ?]. congruence.
  - apply (same_names_declares mads mads' m nm Hsame) in Hd.
    destruct (Hall' _ _ Hd) as [? ?]. congruence.
  - done.
Qed.

Lemma sort_permutation mads order :
  sort mads = Returned (Some order) → order ≡ₚ mads.*1.
Proof.
  intros Hsort.
  destruct (sort_cases mads) as [[Hnone _]|(g0 & g & dn & _ & Hg & Hinv & Hrun)];
    [congruence|].
  rewrite Hrun in Hsort.
  destruct (forallb _ g) eqn:Hcheck; [|done]. injection Hsort as <-.
  rewrite (loop_inv_all_done _ _ _ Hinv (proj1 (check_empty_true g) Hcheck)).
  by rewrite (val_seq _ _ Hg).
Qed.

Lemma sort_length mads order :
  sort mads = Returned (Some order) → length order = length mads.
Proof.
  intros Hsort. rewrite (sort_permutation _ _ Hsort). by rewrite length_fmap.
Qed.

Lemma sort_unresolved mads : unresolved mads → sort mads = Returned None.
Proof.
  intros Hun.
  destruct (sort_cases mads) as [[Hnone _]|(g0 & g & dn & Hres & _)]; [done|].
  exfalso. by eapply resolved_unresolved.
Qed.

Lemma sort_cycle mads :
  names_unique mads → has_cycle mads → sort mads = Returned None.
Proof.
  intros Huniq [m Hcyc]. destruct (sort_returns mads) as [[order|] Hsort]; [|done].
  exfalso. eapply topological_acyclic; [by eapply sort_sound|exact Hcyc].
Qed.

(** ** Registry operations *)

Lemma find_Some ms n m : find ms n = Some m → m ∈ ms ∧ name m = n.
Proof.
  unfold find. destruct (list_find _ ms) as [[i m']|] eqn:Hfind; [|done].
  intros [= <-]. apply list_find_Some in Hfind as (Hi & Hn & _).
  split; [by eapply list_elem_of_lookup_2|done].
Qed.

Lemma find_None ms n : find ms n = None ↔ ∀ m, m ∈ ms → name m ≠ n.
Proof.
  unfold find. rewrite fmap_None, list_find_None, Forall_forall. done.
Qed.

Lemma swap_pop_fmap {A B} (f : A → B) i (v : list A) :
  f <$> swap_pop i v = swap_pop i (f <$> v).
Proof.
  unfold swap_pop. rewrite fmap_last. destruct (last v) as [back|]; simpl; [|done].
  by rewrite fmap_take, list_fmap_insert, length_fmap.
Qed.

Lemma delete_insert_same {A} (l : list A) i y : delete i (<[i:=y]> l) = delete i l.
Proof.
  by rewrite !delete_take_drop, take_insert_ge, drop_insert_lt by lia.
Qed.

(** [swap_pop] takes out the element at index [i] and nothing else. *)
Lemma swap_pop_Permutation {A} i (v : list A) x :
  v !! i = Some x → v ≡ₚ x :: swap_pop i v.
Proof.
  intros Hi. unfold swap_pop.
  destruct (last v) as [back|] eqn:Hlast.
  - apply last_Some in Hlast as [v' ->].
    rewrite length_app. simpl. replace (length v' + 1 - 1) with (length v') by lia.
    destruct (decide (i = length v')) as [->|Hne].
    + rewrite lookup_app_r, Nat.sub_diag in Hi by lia. injection Hi as ->.
      rewrite insert_app_r_alt, Nat.sub_diag by lia. simpl.
      rewrite take_app_length. by rewrite Permutation_app_comm.
    + assert (i < length v') as Hlt.
      { apply lookup_lt_Some in Hi. rewrite length_app in Hi. simpl in Hi. lia. }
      rewrite lookup_app_l in Hi by done.
      rewrite insert_app_l by done.
      rewrite take_app_length' by (by rewrite length_insert).
      rewrite Permutation_app_comm. simpl.
      rewrite (delete_Permutation _ _ _ Hi) at 1.
      rewrite (delete_Permutation (<[i:=back]> v') i back)
        by (by apply list_lookup_insert_eq).
      rewrite delete_insert_same. apply perm_swap.
  - apply last_None in Hlast. subst v. by rewrite lookup_nil in Hi.
Qed.

Lemma consistent_lookup p i m :
  consistent p → modules p !! i = Some m →
  ∃ ds, modulesAndDependencies p !! i = Some (m, ds).
Proof.
  unfold consistent. intros <- Hi.
  apply list_lookup_fmap_Some in Hi as ([m' ds] & -> & Hi). by exists ds.
Qed.

(** ** The start and stop protocol *)

Lemma inits_snoc t h :
  inits (t ++ [h]) = inits t ++ match h with Init m => [m] | _ => [] end.
Proof. unfold inits. rewrite omap_app. by destruct h. Qed.

Lemma halts_snoc t h :
  halts (t ++ [h]) = halts t ++ match h with Halt m => [m] | _ => [] end.
Proof. unfold halts. rewrite omap_app. by destruct h. Qed.

Lemma inits_Init (l : list Mod) : inits (Init <$> l) = l.
Proof.
  induction l as [|m l IH]; [done|].
  change (inits (Init <$> m :: l)) with (m :: inits (Init <$> l)). by rewrite IH.
Qed.

Lemma halts_Init (l : list Mod) : halts (Init <$> l) = [].
Proof.
  induction l as [|m l IH]; [done|].
  change (halts (Init <$> m :: l)) with (halts (Init <$> l)). by rewrite IH.
Qed.

Ltac kernel_crush :=
  repeat match goal with
  | H : _ ∧ _ |- _ => destruct H
  | H : ∃ _, _ |- _ => destruct H
  | H : _ ∨ _ |- _ => destruct H
  | H : False |- _ => destruct H
  | H : Some _ = Some _ |- _ => injection H as H
  | _ => congruence
  | _ => done
  | |- _ ∧ _ => split
  | _ => progress (simpl in *; subst)
  | _ => eassumption
  | |- ∃ _, _ => eexists
  | |- _ ∨ _ => solve [left; kernel_crush | right; kernel_crush]
  end.

Lemma KernelImpl_start_caller w c : caller (KernelImpl_start w c) = caller c.
Proof.
  unfold KernelImpl_start. destruct (wpc w) as [|[|m todo]| |[|m todo]|[|m todo]|]; simpl; try done.
  - by destruct (sort _) as [[?|]|].
  - by case_decide.
Qed.

Lemma status_cases (st : Status) : st ≠ STARTING → st ≠ RUNNING → st = IDLE.
Proof. by destruct st. Qed.

Ltac inv_split := split; [done|split; [done|split]].

Lemma Kernel_start_inv p0 c : start_inv p0 c → start_inv p0 (Kernel_start c).
Proof.
  destruct c as [[st ms mads kt] w pc tr tm].
  unfold start_inv, Kernel_start. simpl. intros (Htm & Hmads & Hw).
  destruct w as [[wp sm]|]; simpl in *.
  - destruct Hw as [Hok Hc]. unfold caller_ok in *. simpl in *.
    destruct pc as [| | | |b|b]; simpl in *; try done.
    + case_decide; simpl; done.
    + split_and!; try done. case_bool_decide; simpl; done.
  - destruct Hw as (-> & -> & Hpc). destruct pc; simpl in *; try done.
Qed.

Lemma Kernel_stop_inv p0 c : start_inv p0 c → start_inv p0 (Kernel_stop c).
Proof.
  destruct c as [[st ms mads kt] w pc tr tm].
  unfold start_inv, Kernel_stop. simpl. intros (Htm & Hmads & Hw).
  destruct w as [[wp sm]|]; simpl in *.
  - destruct Hw as [Hok Hc]. unfold caller_ok, worker_ok, ticking in *. simpl in *.
    destruct pc as [| | | |[]|[]]; simpl in *; try done;
      inv_split;
      destruct wp; simpl in *; kernel_crush.
  - destruct Hw as (-> & -> & Hpc). destruct pc; simpl in *; done.
Qed.

Lemma KernelImpl_start_inv p0 c w :
  start_inv p0 c → worker c = Some w → start_inv p0 (KernelImpl_start w c).
Proof.
  destruct c as [[st ms mads kt] w' pc tr tm]. destruct w as [wp sm].
  unfold start_inv. simpl. intros (Htm & Hmads & Hw) ->. simpl in Hw.
  destruct Hw as [Hok Hc].
  unfold KernelImpl_start, worker_ok, caller_ok, ticking in *. simpl in *.
  destruct wp as [|[|m todo]| |[|m todo]|[|m todo]|]; simpl in *.
  - destruct Hok as (-> & Hst). rewrite Hmads.
    destruct (sort (modulesAndDependencies p0)) as [[order|]|] eqn:Hsort; simpl.
    + inv_split.
      * split_and!; [done| |done]. by exists [].
      * destruct pc as [| | | |[]|[]]; simpl in *; kernel_crush.
    + inv_split.
      * split; [done|]. by left.
      * destruct pc as [| | | |[]|[]]; simpl in *; kernel_crush.
    + inv_split; [done|].
      destruct pc as [| | | |[]|[]]; simpl in *; kernel_crush.
  - destruct Hok as (Hsort & (dn & -> & ->) & Hst).
    rewrite app_nil_r in Hsort |- *. inv_split.
    + rewrite inits_Init, halts_Init. done.
    + destruct pc as [| | | |[]|[]]; simpl in *; kernel_crush.
  - destruct Hok as (Hsort & (dn & -> & ->) & Hst). inv_split.
    + split_and!; [done| |done]. exists (dn ++ [m]).
      by rewrite <- app_assoc, fmap_app.
    + destruct pc as [| | | |[]|[]]; simpl in *; kernel_crush.
  - destruct Hok as (Hsort & Hin & Hha & Hst).
    case_decide as Hrun; simpl; inv_split.
    + split; [done|]. by exists [].
    + destruct pc as [| | | |[]|[]]; simpl in *; kernel_crush.
    + inv_split.
      * exists []. by rewrite Hha.
      * by apply status_cases.
    + destruct pc as [| | | |[]|[]]; simpl in *; kernel_crush.
  - inv_split; [tauto|].
    destruct pc as [| | | |[]|[]]; simpl in *; kernel_crush.
  - destruct Hok as ((Hsort & Hin & Hha & Hst) & (dn & ->)).
    rewrite inits_snoc, halts_snoc, !app_nil_r. inv_split.
    + split_and!; [done..|]. exists (dn ++ [m]). by rewrite <- app_assoc.
    + destruct pc as [| | | |[]|[]]; simpl in *; kernel_crush.
  - destruct Hok as (Hsort & Hin & (dn & Hrev & Hha) & Hst).
    inv_split.
    + split; [done|]. right. rewrite app_nil_r in Hrev. by rewrite Hrev.
    + destruct pc as [| | | |[]|[]]; simpl in *; kernel_crush.
  - destruct Hok as (Hsort & Hin & (dn & Hrev & Hha) & Hst).
    rewrite inits_snoc, halts_snoc, !app_nil_r. inv_split.
    + split_and!; [done..| |done]. exists (dn ++ [m]).
      rewrite <- app_assoc. by rewrite Hha.
    + destruct pc as [| | | |[]|[]]; simpl in *; kernel_crush.
  - done.
Qed.

Lemma step_inv p0 a c : start_inv p0 c → start_inv p0 (step a c).
Proof.
  intros Hinv. unfold step. pose proof Hinv as (Htm & _). rewrite Htm.
  destruct a.
  - by apply Kernel_start_inv.
  - destruct (worker c) as [w|] eqn:Hw; [|done]. by apply KernelImpl_start_inv.
  - by apply Kernel_stop_inv.
Qed.

Lemma exec_app s1 s2 c : exec (s1 ++ s2) c = exec s2 (exec s1 c).
Proof. unfold exec. apply foldl_app. Qed.

Lemma exec_inv p0 s c : start_inv p0 c → start_inv p0 (exec s c).
Proof.
  revert c. induction s as [|a s IH]; intros c Hinv; [done|].
  simpl. by apply IH, step_inv.
Qed.

Lemma start_config_inv p0 :
  kernelThread p0 = false → start_inv p0 (start_config p0).
Proof. intros Hkt. unfold start_inv, start_config. simpl. done. Qed.

(** Once the worker exists, the invariant reads as follows. *)
Lemma start_inv_spawned p0 c w :
  start_inv p0 c → worker c = Some w → worker_ok p0 c w ∧ caller_ok p0 c w.
Proof. intros (_ & _ & Hw) Hwc. by rewrite Hwc in Hw. Qed.

Lemma start_inv_worker p0 c :
  start_inv p0 c → 2 ≤ caller_rank c → ∃ w, worker c = Some w.
Proof.
  intros (_ & _ & Hw) Hr. destruct (worker c) as [w|]; [by eexists|].
  destruct Hw as (_ & _ & Hpc). unfold caller_rank in Hr.
  destruct (caller c); simpl in *; (done || lia).
Qed.

(** ** Progress of the two threads *)

Lemma count_action_cons a b s :
  count_action a (b :: s) = (if decide (b = a) then 1 else 0) + count_action a s.
Proof. unfold count_action. rewrite filter_cons. by case_decide. Qed.

(** A measure that no step lowers and that the steps of one thread raise
    reaches its bound once that thread has taken enough steps. *)
Lemma exec_progress (P : Config → Prop) (rank : Config → nat) (a : Action) (N : nat) :
  (∀ c b, P c → P (step b c)) →
  (∀ c b, P c → rank c ≤ rank (step b c)) →
  (∀ c, P c → rank c < N → rank c < rank (step a c)) →
  ∀ s c, P c → N ≤ rank c + count_action a s →
         P (exec s c) ∧ N ≤ rank (exec s c).
Proof.
  intros HP Hmono Hstrict s. induction s as [|b s IH]; intros c Hc Hn.
  - simpl in *. unfold count_action in Hn. simpl in Hn. split; [done|lia].
  - simpl. rewrite count_action_cons in Hn. apply IH; [by apply HP|].
    specialize (Hmono c b Hc). case_decide as Hb; [|lia]. subst b.
    destruct (decide (rank c < N)) as [Hlt|Hge]; [|lia].
    specialize (Hstrict c Hc Hlt). lia.
Qed.

Lemma caller_rank_mono b c : caller_rank c ≤ caller_rank (step b c).
Proof.
  unfold step. destruct (terminated c); [done|]. destruct b.
  - unfold Kernel_start, caller_rank.
    destruct (caller c) eqn:Hpc; simpl; try (rewrite Hpc; lia); try lia.
    + destruct (kernelThread (impl c)); simpl; [rewrite Hpc|]; lia.
    + case_decide; simpl; [rewrite Hpc|]; lia.
  - destruct (worker c) as [w|]; [|done].
    unfold caller_rank. by rewrite KernelImpl_start_caller.
  - unfold Kernel_stop, caller_rank.
    destruct (caller c) eqn:Hpc; simpl; try (rewrite Hpc; lia); lia.
Qed.

Lemma caller_rank_strict p0 c :
  start_inv p0 c → caller_rank c < 2 → caller_rank c < caller_rank (step ACaller c).
Proof.
  intros (Htm & _ & Hw) Hlt. unfold step. rewrite Htm.
  unfold Kernel_start, caller_rank in *.
  destruct (worker c) as [w|].
  - destruct Hw as [_ Hc]. unfold caller_ok in Hc.
    destruct (caller c); simpl in *; (done || lia).
  - destruct Hw as (_ & Hkt & _). rewrite Hkt.
    destruct (caller c); simpl in *; lia.
Qed.

Lemma init_rank_mono p0 n b c :
  start_inv p0 c → init_rank n c ≤ init_rank n (step b c).
Proof.
  intros (_ & _ & Hinv). unfold caller_ok in Hinv.
  unfold step. destruct (terminated c); [done|]. destruct b.
  - unfold Kernel_start, init_rank.
    destruct (caller c); simpl; try done.
    + destruct (worker c) as [w|]; [by destruct Hinv as [_ ?]|].
      destruct (kernelThread (impl c)); simpl; lia.
    + by case_decide.
  - destruct (worker c) as [[wp sm]|] eqn:Hw; [|done].
    unfold init_rank, KernelImpl_start. rewrite Hw. simpl.
    destruct wp as [|[|m todo]| |[|m todo]|[|m todo]|]; simpl;
      first [ lia
            | destruct (sort _) as [[?|]|]; simpl; try rewrite Hw; simpl; lia
            | case_decide; simpl; lia
            | rewrite Hw; simpl; lia ].
  - unfold Kernel_stop, init_rank. by destruct (caller c).
Qed.

Lemma init_rank_strict p0 c :
  start_inv p0 c → 2 ≤ caller_rank c →
  init_rank (length (modulesAndDependencies p0)) c
    < length (modulesAndDependencies p0) + 2 →
  init_rank (length (modulesAndDependencies p0)) c
    < init_rank (length (modulesAndDependencies p0)) (step AWorker c).
Proof.
  intros Hinv Hpc Hlt.
  destruct (start_inv_worker _ _ Hinv Hpc) as [[wp sm] Hw].
  destruct (start_inv_spawned _ _ _ Hinv Hw) as [Hok _].
  destruct Hinv as (Htm & Hmads & _).
  unfold step. rewrite Htm, Hw. unfold init_rank in *. rewrite Hw in Hlt |- *.
  unfold KernelImpl_start, worker_ok in *. simpl in *.
  destruct wp as [|[|m todo]| |[|m todo]|[|m todo]|]; simpl in *; try lia.
  - rewrite Hmads. destruct (sort_returns (modulesAndDependencies p0)) as [[order|] Hsort];
      rewrite Hsort; simpl; [|lia].
    rewrite (sort_length _ _ Hsort). lia.
  - destruct Hok as (Hsort & (dn & -> & _) & _).
    apply sort_length in Hsort. rewrite length_app in Hsort. simpl in Hsort. lia.
Qed.

Lemma poll_rank_strict p0 c :
  start_inv p0 c → 2 ≤ caller_rank c →
  length (modulesAndDependencies p0) + 2
    ≤ init_rank (length (modulesAndDependencies p0)) c →
  caller_rank c < 4 → caller_rank c < caller_rank (step ACaller c).
Proof.
  intros Hinv Hpc Hr Hlt.
  destruct (start_inv_worker _ _ Hinv Hpc) as [[wp sm] Hw].
  destruct (start_inv_spawned _ _ _ Hinv Hw) as [Hok _].
  destruct Hinv as (Htm & Hmads & _).
  unfold step. rewrite Htm. unfold init_rank in Hr. rewrite Hw in Hr.
  unfold Kernel_start, caller_rank, worker_ok, ticking in *. simpl in *.
  destruct (caller c) eqn:Hcaller; simpl in *; try lia.
  case_decide as Hst; simpl; [|lia]. exfalso.
  destruct wp as [|todo| |todo|todo|]; simpl in *; try lia; kernel_crush.
Qed.

(** Under a fair schedule the controlling thread comes back from
    [Kernel::start]. *)
Lemma start_returns p0 s :
  kernelThread p0 = false →
  fair_start (length (modulesAndDependencies p0) + 2) s →
  ∃ b, start_returned (exec s (start_config p0)) = Some b.
Proof.
  intros Hkt (s1 & s2 & s3 & -> & H1 & H2 & H3).
  rewrite !exec_app.
  destruct (exec_progress (start_inv p0) caller_rank ACaller 2) with
    (s := s1) (c := start_config p0) as [Hinv1 Hr1].
  { intros c b. apply step_inv. }
  { intros c b _. apply caller_rank_mono. }
  { apply caller_rank_strict. }
  { by apply start_config_inv. }
  { lia. }
  set (n := length (modulesAndDependencies p0)) in *.
  destruct (exec_progress (λ c, start_inv p0 c ∧ 2 ≤ caller_rank c)
              (init_rank n) AWorker (n + 2)) with
    (s := s2) (c := exec s1 (start_config p0)) as [[Hinv2 Hr2] Hw2].
  { intros c b [Hi Hr]. split; [by apply step_inv|].
    pose proof (caller_rank_mono b c). lia. }
  { intros c b [Hi _]. by eapply init_rank_mono. }
  { intros c [Hi Hr]. by apply init_rank_strict. }
  { done. }
  { lia. }
  destruct (exec_progress
              (λ c, start_inv p0 c ∧ 2 ≤ caller_rank c ∧ n + 2 ≤ init_rank n c)
              caller_rank ACaller 4) with
    (s := s3) (c := exec s2 (exec s1 (start_config p0))) as [_ Hr3].
  { intros c b (Hi & Hr & Hw). split_and!; [by apply step_inv| |].
    - pose proof (caller_rank_mono b c). lia.
    - pose proof (init_rank_mono p0 n b c Hi). lia. }
  { intros c b _. apply caller_rank_mono. }
  { intros c (Hi & Hr & Hw). by apply (poll_rank_strict p0). }
  { done. }
  { lia. }
  clear -Hr3. unfold caller_rank, start_returned in *.
  destruct (caller (exec s3 _)); first [lia | by eexists].
Qed.





(** ** What the invariant says at the return of [Kernel::start] and at the
    exit of the worker *)

Lemma start_inv_trace_nil p0 c :
  start_inv p0 c → sort (modulesAndDependencies p0) = Returned None →
  trace c = [] ∧
  ∀ b, start_returned c = Some b → b = false ∧ status (impl c) = IDLE.
Proof.
  intros (_ & _ & Hw) Hsort. unfold start_returned.
  destruct (worker c) as [[wp sm]|].
  - destruct Hw as [Hok Hc]. unfold worker_ok, caller_ok, ticking in *. simpl in *.
    assert (trace c = [] ∧ status (impl c) ≠ RUNNING) as [Htr Hst].
    { destruct wp; simpl in *; kernel_crush. }
    split; [done|]. intros b Hb.
    destruct (caller c) as [| | | |[]|[]]; simpl in *; try done;
      injection Hb as <-; kernel_crush; by apply status_cases.
  - destruct Hw as (Htr & _ & Hpc). split; [done|].
    intros b Hb. by destruct (caller c).
Qed.

Lemma start_inv_returned p0 c :
  start_inv p0 c → start_returned c = Some true →
  (∃ order, sort (modulesAndDependencies p0) = Returned (Some order) ∧
            inits (trace c) = order) ∧
  (caller c = CReturned true → status (impl c) = RUNNING).
Proof.
  intros (_ & _ & Hw) Hret. unfold start_returned in Hret.
  destruct (worker c) as [[wp sm]|].
  - destruct Hw as [Hok Hc]. unfold worker_ok, caller_ok, ticking in *. simpl in *.
    destruct (caller c) as [| | | |[]|[]] eqn:Hcaller; simpl in *; try done.
    + split; [|done]. exists sm. destruct wp; simpl in *; kernel_crush.
    + split; [|done]. exists sm. destruct wp; simpl in *; kernel_crush.
  - destruct Hw as (_ & _ & Hpc). by destruct (caller c).
Qed.



(** ** Runs in which [Kernel::stop] is not called *)

Lemma quiet_step p0 a c :
  a ≠ AStop → start_inv p0 c → quiet p0 c → quiet p0 (step a c).
Proof.
  destruct c as [[st ms mads kt] w pc tr tm].
  unfold start_inv, quiet, step. simpl. intros Ha (-> & Hmads & Hinv) [Hpc Hw].
  destruct a; [| |done].
  - unfold Kernel_start. simpl. destruct w as [[wp sm]|]; simpl in *.
    + destruct Hinv as [_ Hc]. unfold caller_ok in Hc. simpl in Hc.
      destruct pc as [| | | |b|b]; simpl in *; try done.
      case_decide; simpl; done.
    + destruct Hinv as (_ & -> & Hc). destruct pc; simpl in *; try done.
      split; [done|]. by apply Hw.
  - destruct w as [[wp sm]|]; [|done]. simpl in *.
    unfold KernelImpl_start. simpl.
    destruct wp as [|[|m todo]| |[|m todo]|[|m todo]|]; simpl in *; subst;
      try (destruct pc as [| | | |b|b]; simpl in *; kernel_crush; fail).
    destruct (sort (modulesAndDependencies p0)) as [[order|]|]; simpl;
        destruct pc as [| | | |b|b]; simpl in *; kernel_crush.
Qed.

Lemma quiet_exec p0 s c :
  AStop ∉ s → start_inv p0 c → quiet p0 c →
  start_inv p0 (exec s c) ∧ quiet p0 (exec s c).
Proof.
  revert c. induction s as [|a s IH]; intros c Hs Hinv Hq; [done|].
  apply not_elem_of_cons in Hs as [Ha Hs]. simpl.
  apply IH; [done|by apply step_inv|by apply quiet_step].
Qed.

Lemma start_config_quiet p0 : quiet p0 (start_config p0).
Proof. unfold quiet, start_config. simpl. done. Qed.

(** Without a call of [Kernel::stop], a successful [sort] makes
    [Kernel::start] return true, and a result leaves the status at RUNNING
    or at IDLE according to it. *)
Lemma quiet_returned p0 c b :
  start_inv p0 c → quiet p0 c → start_returned c = Some b →
  caller c = CReturned b ∧
  status (impl c) = (if b then RUNNING else IDLE) ∧
  ((∃ order, sort (modulesAndDependencies p0) = Returned (Some order)) → b = true).
Proof.
  intros (_ & _ & Hinv) [Hpc Hw] Hret. unfold start_returned in Hret.
  destruct (caller c) as [| | | |b'|b'] eqn:Hcaller; try done.
  injection Hret as ->. destruct Hpc as [Hst ->]. split; [done|].
  case_bool_decide as Hrun; [by split|]. split; [by apply status_cases|].
  intros [order Hsort].
  destruct (worker c) as [[wp sm]|]; [|by destruct Hinv as (_ & _ & ?)].
  simpl in Hw. destruct wp; simpl in Hw; first [done|congruence].
Qed.

Lemma quiet_no_halt p0 c :
  start_inv p0 c → quiet p0 c →
  halts (trace c) = [] ∧
  (worker_exited c →
   sort (modulesAndDependencies p0) = Returned None ∧ trace c = []).
Proof.
  intros (_ & _ & Hinv) [_ Hw]. unfold worker_exited.
  destruct (worker c) as [[wp sm]|].
  - destruct Hinv as [Hok _]. unfold worker_ok, ticking in Hok. simpl in *.
    destruct wp as [|todo| |todo|todo|]; simpl in *.
    + destruct Hok as [-> _]. split; [done|]. by intros (w & [= <-] & ?).
    + destruct Hok as (_ & (dn & _ & ->) & _). rewrite halts_Init.
      split; [done|]. by intros (w & [= <-] & ?).
    + destruct Hok as (_ & _ & -> & _). split; [done|]. by intros (w & [= <-] & ?).
    + destruct Hok as ((_ & _ & -> & _) & _). split; [done|].
      by intros (w & [= <-] & ?).
    + done.
    + destruct Hok as (_ & [(_ & ->)|(Hsort & _)]); [|congruence].
      split; [done|]. by intros _.
  - destruct Hinv as (-> & _). split; [done|]. by intros (w & ? & _).
Qed.

(** ** A second call of [Kernel::start] *)

(** The first call leaves the kernel with a thread object as soon as the
    controlling thread has taken two steps. *)
Lemma thread_owned_step a c :
  caller_rank c < 2 ∨ kernelThread (impl c) = true →
  caller_rank (step a c) < 2 ∨ kernelThread (impl (step a c)) = true.
Proof.
  destruct c as [[st ms mads kt] w pc tr tm]. unfold step, caller_rank. simpl.
  destruct tm; [done|]. intros Hq. destruct a.
  - unfold Kernel_start. simpl.
    destruct pc; simpl in *;
      first [ left; lia
            | destruct kt; simpl; [left; lia|by right]
            | destruct Hq as [Hq|Hq]; [lia|]; try case_decide; simpl; by right ].
  - destruct w as [[wp sm]|]; [|done]. unfold KernelImpl_start. simpl.
    destruct wp as [|[|m todo]| |[|m todo]|[|m todo]|]; simpl; try done.
    + by destruct (sort mads) as [[?|]|].
    + by case_decide.
  - unfold Kernel_stop. simpl. by destruct pc.
Qed.

Lemma thread_owned p0 s :
  kernelThread p0 = false → 2 ≤ count_action ACaller s →
  kernelThread (impl (exec s (start_config p0))) = true.
Proof.
  intros Hkt Hs.
  destruct (exec_progress
              (λ c, start_inv p0 c ∧
                    (caller_rank c < 2 ∨ kernelThread (impl c) = true))
              caller_rank ACaller 2) with (s := s) (c := start_config p0)
    as [[_ Hq] Hr].
  - intros c b [Hi Hq]. split; [by apply step_inv|by apply thread_owned_step].
  - intros c b _. apply caller_rank_mono.
  - intros c [Hi _]. by apply (caller_rank_strict p0).
  - split; [by apply start_config_inv|]. left. unfold caller_rank. simpl. lia.
  - lia.
  - destruct Hq as [Hq|Hq]; [lia|done].
Qed.

(** A call of [Kernel::start] on a kernel that owns a thread object creates
    no worker and never comes back. *)
Lemma restart_step a c : restarting c → restarting (step a c).
Proof.
  destruct c as [[st ms mads kt] w pc tr tm]. unfold restarting, step. simpl.
  intros (-> & -> & -> & Hpc). destruct tm; [done|].
  destruct Hpc as [->| ->]; destruct a; simpl; tauto.
Qed.

Lemma restart_exec s c : restarting c → restarting (exec s c).
Proof.
  revert c. induction s as [|a s IH]; intros c Hc; [done|].
  simpl. by apply IH, restart_step.
Qed.

Lemma start_config_restarting p :
  kernelThread p = true → restarting (start_config p).
Proof. intros Hkt. unfold restarting. simpl. split_and!; [done..|]. by left. Qed.

Lemma restart_never_returns p s :
  kernelThread p = true →
  start_returned (exec s (start_config p)) = None ∧
  worker (exec s (start_config p)) = None ∧
  trace (exec s (start_config p)) = [].
Proof.
  intros Hkt.
  destruct (restart_exec s _ (start_config_restarting p Hkt)) as (_ & Hw & Htr & Hpc).
  split_and!; [|done..]. unfold start_returned.
  destruct Hpc as [Hpc|Hpc]; by rewrite Hpc.
Qed.

Lemma restart_terminates p s :
  kernelThread p = true → 2 ≤ count_action ACaller s →
  terminated (exec s (start_config p)) = true.
Proof.
  intros Hkt Hs.
  destruct (exec_progress restarting
              (λ c, if terminated c then 2 else caller_rank c) ACaller 2)
    with (s := s) (c := start_config p) as [(_ & _ & _ & Hpc) Hr].
  - intros c b. apply restart_step.
  - intros c b Hc.
    destruct c as [[st ms mads kt] w pc tr tm]. unfold restarting in Hc. simpl in *.
    destruct Hc as (-> & -> & -> & Hpc). unfold step. simpl.
    destruct tm; [done|]. destruct Hpc as [->| ->];
      destruct b; simpl; unfold caller_rank; simpl; lia.
  - intros c Hc Hlt.
    destruct c as [[st ms mads kt] w pc tr tm]. unfold restarting in Hc. simpl in *.
    destruct Hc as (-> & -> & -> & Hpc). unfold step. simpl.
    destruct tm; [lia|]. destruct Hpc as [->| ->];
      unfold caller_rank; simpl; lia.
  - by apply start_config_restarting.
  - simpl. lia.
  - destruct (terminated (exec s (start_config p))); [done|].
    unfold caller_rank in Hr. destruct Hpc as [Hc|Hc]; rewrite Hc in Hr; lia.
Qed.

Lemma returned_first_start p0 s b :
  start_returned (exec s (start_config p0)) = Some b → kernelThread p0 = false.
Proof.
  intros Hret. destruct (kernelThread p0) eqn:Hkt; [|done].
  destruct (restart_never_returns p0 s Hkt) as [Hnone _]. congruence.
Qed.

Lemma sort_nil : sort [] = Returned (Some []).
Proof. reflexivity. Qed.

Lemma empty_inv_step a c : empty_inv c → empty_inv (step a c).
Proof.
  destruct c as [[st ms mads kt] w pc tr tm]. unfold empty_inv, step. simpl.
  intros (-> & -> & Hw). destruct tm; [done|]. destruct a; simpl.
  - unfold Kernel_start. simpl. destruct pc; simpl; try done.
    + destruct kt; simpl; done.
    + case_decide; done.
  - destruct w as [[wp sm]|]; [|done]. simpl in Hw. destruct Hw as [-> Hw].
    unfold KernelImpl_start. simpl.
    destruct wp as [|todo| |todo|todo|]; simpl; try subst todo; simpl;
      first [done | by case_decide].
  - unfold Kernel_stop. simpl. destruct pc; done.
Qed.

Lemma empty_inv_exec s c : empty_inv c → empty_inv (exec s c).
Proof.
  revert c. induction s as [|a s IH]; intros c Hinv; [done|].
  simpl. by apply IH, empty_inv_step.
Qed.

Lemma resolvedb_resolved mads : resolvedb mads = true → resolved mads.
Proof.
  unfold resolvedb. rewrite forallb_forall. intros Hall m nm (ds & Hin & Hnm).
  apply list_elem_of_In, Hall in Hin. simpl in Hin.
  rewrite forallb_forall in Hin. apply list_elem_of_In, Hin in Hnm.
  apply existsb_exists in Hnm as (d & Hd & Heq).
  exists d. split; [by apply list_elem_of_In|by apply bool_decide_eq_true in Heq].
Qed.

Lemma rankedb_acyclic rank mads : rankedb rank mads = true → acyclic mads.
Proof.
  unfold rankedb. rewrite forallb_forall. intros Hall.
  assert (Hstep : ∀ m d, depends_on mads m d → rank d < rank m).
  { intros m d (Hd & ds & Hin & Hnm).
    apply list_elem_of_In, Hall in Hin. simpl in Hin.
    rewrite forallb_forall in Hin. apply list_elem_of_In, Hin in Hnm.
    rewrite forallb_forall in Hnm. apply list_elem_of_In, Hnm in Hd.
    rewrite bool_decide_eq_true_2 in Hd by done. simpl in Hd.
    by apply bool_decide_eq_true in Hd. }
  assert (Htc : ∀ m d, tc (depends_on mads) m d → rank d < rank m).
  { intros m d Hmd. induction Hmd as [m d Hmd|m d e Hmd _ IH].
    - by apply Hstep.
    - apply Hstep in Hmd. lia. }
  intros m Hm. apply Htc in Hm. lia.
Qed.

Lemma add_names_unique module deps p :
  consistent p → names_unique (modulesAndDependencies p) →
  names_unique (modulesAndDependencies (add module deps p).1.2).
Proof.
  unfold consistent, names_unique, add. intros Hcons Hnd.
  case_decide; [done|].
  destruct (find (modules p) (name module)) as [m|] eqn:Hfind; simpl; [done|].
  rewrite !fmap_app. simpl. apply NoDup_app. split_and!; [done| |apply NoDup_singleton].
  intros nm Hnm Hnm'. apply list_elem_of_singleton in Hnm'. subst nm.
  apply list_elem_of_fmap in Hnm as (m & Hm & Hin). rewrite Hcons in Hin.
  rewrite find_None in Hfind. by apply (Hfind m).
Qed.

Lemma remove_cases n p :
  consistent p →
  ∃ r p' log,
    remove n p = Returned (r, p', log) ∧
    consistent p' ∧
    (names_unique (modulesAndDependencies p) →
     names_unique (modulesAndDependencies p')) ∧
    (LOG_ERROR, "Kernel::remove: internal error: inconsistent module arrays") ∉ log.
Proof.
  intros Hcons. unfold remove. case_decide as Hst.
  { eexists _, _, _. split_and!; [done..|].
    intros Hin. by apply list_elem_of_singleton in Hin. }
  destruct (list_find _ (modules p)) as [[i module]|] eqn:Hfind.
  - apply list_find_Some in Hfind as (Hi & Hname & _).
    destruct (consistent_lookup _ _ _ Hcons Hi) as [ds Hmd].
    rewrite Hmd. simpl. rewrite decide_True by done.
    eexists _, _, _. split_and!; [done| | |].
    + unfold consistent in *. simpl. by rewrite swap_pop_fmap, Hcons.
    + unfold names_unique. simpl. rewrite !swap_pop_fmap. intros Hnd.
      assert (Hlook : (name <$> (modulesAndDependencies p).*1) !! i = Some n).
      { rewrite !list_lookup_fmap, Hmd. simpl. by rewrite Hname. }
      rewrite (swap_pop_Permutation _ _ _ Hlook) in Hnd.
      by apply NoDup_cons in Hnd as [_ Hnd].
    + simpl. intros Hin. by apply list_elem_of_singleton in Hin.
  - eexists _, _, _. split_and!; [done..|].
    intros Hin. by apply list_elem_of_singleton in Hin.
Qed.

Lemma add_consistent module deps p :
  consistent p → consistent (add module deps p).1.2.
Proof.
  unfold consistent, add. intros Hcons. case_decide; [done|].
  destruct (find _ _); simpl; [done|]. by rewrite fmap_app, Hcons.
Qed.

Lemma new_kernel_consistent :
  consistent new_kernel ∧ names_unique (modulesAndDependencies new_kernel).
Proof. split; [done|]. apply NoDup_nil_2. Qed.

(** ** The stated properties *)

(** C1. For a registry with unique module names in which every declared
    dependency name is the name of a registered module and the dependency
    relation has no cycle, [sort] returns true with an order that holds
    every registered module exactly once and puts every dependency strictly
    before each module that declares it. *)
Theorem sort_acyclic_topological mads :
  names_unique mads → resolved mads → acyclic mads →
  ∃ order,
    sort mads = Returned (Some order) ∧
    order ≡ₚ mads.*1 ∧ NoDup order ∧
    ∀ m d, depends_on mads m d → before order d m.
Proof.
  intros Huniq Hres Hacyc.
  destruct (sort_complete mads Hres Hacyc) as [order Hsort].
  exists order. split; [done|]. by apply sort_sound.
Qed.

(** C3. When [Kernel::start] has returned true, [init] has been called
    exactly once on every registered module, every dependency before each
    module declaring it, and the status is RUNNING for as long as
    [Kernel::stop] has not been called. *)
Theorem start_true_initialised p0 s :
  consistent p0 →
  names_unique (modulesAndDependencies p0) →
  kernelThread p0 = false →
  start_returned (exec s (start_config p0)) = Some true →
  inits (trace (exec s (start_config p0))) ≡ₚ modules p0 ∧
  NoDup (inits (trace (exec s (start_config p0)))) ∧
  (∀ m d, depends_on (modulesAndDependencies p0) m d →
          before (inits (trace (exec s (start_config p0)))) d m) ∧
  (caller (exec s (start_config p0)) = CReturned true →
   status (impl (exec s (start_config p0))) = RUNNING).
Proof.
  intros Hcons Huniq Hkt Hret.
  pose proof (exec_inv p0 s _ (start_config_inv p0 Hkt)) as Hinv.
  destruct (start_inv_returned _ _ Hinv Hret) as [(order & Hsort & Hin) Hst].
  rewrite Hin. destruct (sort_sound _ _ Huniq Hsort) as (Hperm & Hnd & Hdep).
  split_and!; [|done..]. by rewrite Hperm, Hcons.
Qed.


(** C6. While the status is not IDLE, [Kernel::add] returns false and
    [Kernel::remove] returns [nullptr], and both leave the kernel, hence
    the registry, as it was. *)
Theorem mutation_needs_idle p :
  status p ≠ IDLE →
  (∀ module deps, ∃ log, add module deps p = (false, p, log)) ∧
  (∀ n, ∃ log, remove n p = Returned (None, p, log)).
Proof.
  intros Hst. split.
  - intros module deps. unfold add. rewrite decide_True by done. by eexists.
  - intros n. unfold remove. rewrite decide_True by done. by eexists.
Qed.

(** C7. When a module with the same name is already registered,
    [Kernel::add] returns false and leaves the kernel as it was. *)
Theorem add_rejects_existing_name p module deps m :
  m ∈ modules p → name m = name module →
  ∃ log, add module deps p = (false, p, log).
Proof.
  intros Hin Hname. unfold add. case_decide; [by eexists|].
  destruct (find (modules p) (name module)) as [m'|] eqn:Hfind; [by eexists|].
  rewrite find_None in Hfind. by destruct (Hfind m Hin).
Qed.

(** C8. Two registries with the same modules whose dependency lists hold
    the same names, whatever the number of times each name is written,
    make [sort] return the same result: the same outcome and, under the
    same choices of [vertices.begin()], the same order. *)
Theorem sort_ignores_multiplicity mads mads' :
  same_names mads mads' → sort mads = sort mads'.
Proof.
  intros Hsame. unfold sort.
  pose proof (createGraph_same_names _ _ Hsame) as Hg.
  destruct (createGraph mads) as [[g|]|], (createGraph mads') as [[g'|]|];
    simpl; try done.
  destruct Hg as (Hl & Hv & Ha).
  assert (Hg : graph_equiv g g') by done.
  rewrite Hl, (graph_equiv_initial _ _ Hg).
  pose proof (sort_loop_equiv (length g') 0 g g' (initial_vertices g') [] Hg) as Hloop.
  destruct (sort_loop _ 0 g _ _) as [[g1 sm1]|],
           (sort_loop _ 0 g' _ _) as [[g1' sm1']|]; simpl; try done.
  destruct Hloop as [Hg1 ->]. by rewrite (graph_equiv_check _ _ Hg1).
Qed.

(** C9. The two bookkeeping vectors agree index by index after every
    [Kernel::add] and every [Kernel::remove] on a kernel where they agree,
    and [Kernel::remove] then never takes its internal-error branch. *)
Theorem bookkeeping_stays_consistent p :
  consistent p →
  (∀ module deps, consistent (add module deps p).1.2) ∧
  (∀ n, ∃ r p' log,
     remove n p = Returned (r, p', log) ∧ consistent p' ∧
     (LOG_ERROR, "Kernel::remove: internal error: inconsistent module arrays") ∉ log).
Proof.
  intros Hcons. split.
  - intros module deps. by apply add_consistent.
  - intros n. destruct (remove_cases n p Hcons) as (r & p' & log & Hrun & Hc & _ & Hlog).
    by exists r, p', log.
Qed.

(** ** Further properties of [createGraph] and [sort] *)

Lemma edge_count_push_adj g j x :
  j < length g → edge_count (push_adj j x g) = S (edge_count g).
Proof.
  unfold edge_count, push_adj. revert j.
  induction g as [|v g IH]; intros j Hj; simpl in Hj; [lia|].
  destruct j as [|j].
  - change (alter ?f 0 (v :: g)) with (f v :: g).
    rewrite !bind_cons, !length_app. simpl. rewrite length_app. simpl. lia.
  - change (alter ?f (S j) (v :: g)) with (v :: alter f j g).
    rewrite !bind_cons, !length_app, IH by lia. lia.
Qed.

Lemma createGraph_names_count moduleMap vertexMap vertex names g g' :
  tables_ok moduleMap vertexMap (length g) →
  createGraph_names moduleMap vertexMap vertex names g = Returned (Some g') →
  length g' = length g ∧ edge_count g' = edge_count g + length names.
Proof.
  revert g. induction names as [|nm names IH]; intros g Hok; simpl.
  - intros [= <-]. split; [done|lia].
  - destruct (moduleMap !! nm) as [dm|] eqn:Hnm; [|done].
    destruct (Hok _ _ Hnm) as (j & Hj & Hlt). rewrite Hj. simpl. intros Hrun.
    apply IH in Hrun as [Hl Hc].
    + unfold push_adj in Hl. rewrite length_alter in Hl.
      rewrite edge_count_push_adj in Hc by done. split; [done|lia].
    + unfold push_adj. by rewrite length_alter.
Qed.

Lemma createGraph_link_count moduleMap vertexMap mads g g' :
  tables_ok moduleMap vertexMap (length g) →
  createGraph_link moduleMap vertexMap mads g = Returned (Some g') →
  length g' = length g ∧ edge_count g' = edge_count g + name_count mads.
Proof.
  revert g. induction mads as [|[m ds] mads IH]; intros g Hok; simpl.
  - intros [= <-]. unfold name_count. simpl. split; [done|lia].
  - destruct (vertexMap !! m) as [vertex|]; simpl; [|done].
    destruct (createGraph_names _ _ vertex ds g) as [[g1|]|] eqn:Hnames; simpl; [|done..].
    apply createGraph_names_count in Hnames as [Hl1 Hc1]; [|done].
    intros Hrun. apply IH in Hrun as [Hl Hc]; [|by rewrite Hl1].
    split; [congruence|]. unfold name_count in *.
    rewrite bind_cons, length_app. simpl. lia.
Qed.

(** X1. [sort] comes back from every registry, whatever [vertices.begin()]
    picks, and an order it returns holds exactly the modules of the
    registry, each as often as it is registered. *)
Theorem sort_returns_permutation mads :
  ∃ r, sort mads = Returned r ∧ ∀ order, r = Some order → order ≡ₚ mads.*1.
Proof.
  destruct (sort_returns mads) as [r Hr]. exists r. split; [done|].
  intros order ->. by apply sort_permutation.
Qed.

(** X2. On a registry with unique names, [sort] returns true exactly when
    every declared name resolves and the dependency relation has no
    cycle. *)
Theorem sort_true_iff mads :
  names_unique mads →
  (∃ order, sort mads = Returned (Some order)) ↔ resolved mads ∧ acyclic mads.
Proof.
  intros Huniq. split.
  - intros [order Hsort]. split.
    + destruct (sort_cases mads) as [[Hnone _]|(g0 & g & dn & Hres & _)];
        [congruence|done].
    + eapply topological_acyclic. by apply sort_sound.
  - intros [Hres Hacyc]. by apply sort_complete.
Qed.

(** X3. [createGraph] returns false exactly when some declared name is the
    name of no registered module. *)
Theorem createGraph_false_iff mads :
  createGraph mads = Returned None ↔ unresolved mads.
Proof.
  destruct (createGraph_cases mads) as [(g0 & Hrun & Hres & _)|[Hrun Hun]].
  - split; [congruence|]. intros Hun. exfalso. by eapply resolved_unresolved.
  - done.
Qed.

(** X4. A graph built by [createGraph] has one vertex per entry of the
    registry, in registry order, one edge per dependency name written, and
    every edge points at a vertex of the graph. *)
Theorem createGraph_vertices_edges mads g :
  createGraph mads = Returned (Some g) →
  value <$> g = mads.*1 ∧
  edge_count g = name_count mads ∧
  ∀ j x, x ∈ adj g j → x < length g.
Proof.
  intros Hrun.
  destruct (createGraph_cases mads) as [(g0 & Hrun' & _ & Hg)|[Hnone _]]; [|congruence].
  assert (g0 = g) as -> by congruence.
  split_and!.
  - apply list_eq. intros j. rewrite list_lookup_fmap.
    pose proof (go_val _ _ Hg j) as Hv. unfold val in Hv.
    destruct (g !! j) as [v|] eqn:Hj; simpl in *.
    + apply lookup_lt_Some in Hj. rewrite (go_length _ _ Hg) in Hj.
      destruct (lookup_lt_is_Some_2 mads.*1 j) as [m Hm]; [by rewrite length_fmap|].
      rewrite Hm in Hv |- *. simpl in Hv. by rewrite Hv.
    + symmetry. apply lookup_ge_None_2. apply lookup_ge_None_1 in Hj.
      rewrite length_fmap, <- (go_length _ _ Hg). done.
  - destruct (register_modules_spec mads.*1)
      as (mm & vm & Hreg & Hmm & _ & Hvm & Hvdom & _).
    rewrite (createGraph_unfold _ _ _ _ Hreg) in Hrun.
    apply createGraph_link_count in Hrun as [_ Hc].
    + rewrite Hc. unfold edge_count.
      assert (Hfresh : ∀ ms : list Mod, (((λ m, mkVertex m []) <$> ms) ≫= adjList) = []).
      { intros ms. induction ms as [|m ms IH]; [done|]. simpl. done. }
      by rewrite Hfresh.
    + intros nm dm Hnm. apply Hmm in Hnm as [Hin _].
      destruct (Hvdom _ Hin) as [j Hj]. exists j. split; [done|].
      rewrite length_fmap. apply Hvm in Hj. by eapply lookup_lt_Some.
  - intros j x Hx. rewrite (go_length _ _ Hg). by eapply (go_bound _ _ Hg).
Qed.

(** ** Further properties of the registry operations *)

Lemma find_snoc l m n :
  find (l ++ [m]) n =
  match find l n with
  | Some x => Some x
  | None => if decide (name m = n) then Some m else None
  end.
Proof.
  unfold find. induction l as [|x l IH]; simpl.
  - by case_decide.
  - destruct (decide (name x = n)); simpl; [done|].
    simpl in IH.
    destruct (list_find _ (l ++ [m])) as [[j y]|], (list_find _ l) as [[j' y']|];
      simpl in *; done.
Qed.

Lemma names_inj (l : list Mod) x y :
  NoDup (name <$> l) → x ∈ l → y ∈ l → name x = name y → x = y.
Proof.
  intros Hnd Hx Hy Hxy.
  apply list_elem_of_lookup in Hx as [i Hi]. apply list_elem_of_lookup in Hy as [j Hj].
  assert (i = j) as ->.
  { eapply (NoDup_lookup _ _ _ _ Hnd).
    - by rewrite list_lookup_fmap, Hi.
    - rewrite list_lookup_fmap, Hj. simpl. by rewrite Hxy. }
  congruence.
Qed.

Lemma find_unique l m :
  NoDup (name <$> l) → m ∈ l → find l (name m) = Some m.
Proof.
  intros Hnd Hm. destruct (find l (name m)) as [m'|] eqn:Hfind.
  - apply find_Some in Hfind as [Hm' Hname]. f_equal. by eapply names_inj.
  - rewrite find_None in Hfind. by destruct (Hfind m Hm).
Qed.

Lemma find_ext l l' n :
  NoDup (name <$> l) → NoDup (name <$> l') →
  (∀ x, name x = n → x ∈ l ↔ x ∈ l') →
  find l n = find l' n.
Proof.
  intros Hnd Hnd' Hext. destruct (find l n) as [m|] eqn:Hfind.
  - apply find_Some in Hfind as [Hm <-]. symmetry. apply find_unique; [done|].
    by apply Hext.
  - symmetry. apply find_None. intros x Hx Hname.
    rewrite find_None in Hfind. apply (Hfind x); [|done]. by apply Hext.
Qed.

Lemma find_list_find l n m :
  find l n = Some m → ∃ i, list_find (λ module, name module = n) l = Some (i, m).
Proof.
  unfold find. destruct (list_find _ l) as [[i m']|]; [|done].
  intros [= <-]. by exists i.
Qed.

(** What [Kernel::remove] does once the name is found at index [i]. *)
Lemma remove_found n p i m :
  consistent p → status p = IDLE →
  list_find (λ module, name module = n) (modules p) = Some (i, m) →
  remove n p =
    Returned (Some m,
              mkKernelImpl IDLE (swap_pop i (modules p))
                (swap_pop i (modulesAndDependencies p)) (kernelThread p),
              [(LOG_DEBUG, "Kernel::remove: module '%s' removed")]).
Proof.
  intros Hcons Hst Hfind. unfold remove. rewrite decide_False by (by rewrite Hst; intros []).
  rewrite Hfind. apply list_find_Some in Hfind as (Hi & Hname & _).
  destruct (consistent_lookup _ _ _ Hcons Hi) as [ds Hmd].
  rewrite Hmd. simpl. rewrite decide_True by done. by rewrite Hst.
Qed.

Lemma remove_keeps_status n p r p' log :
  remove n p = Returned (r, p', log) →
  status p' = status p ∧ kernelThread p' = kernelThread p.
Proof.
  unfold remove. case_decide; [by intros [= _ <- _]|].
  destruct (list_find _ (modules p)) as [[i m]|]; [|by intros [= _ <- _]].
  destruct (modulesAndDependencies p !! i) as [md|]; simpl; [|done].
  case_decide; by intros [= _ <- _].
Qed.

(** X5. On an idle kernel where the name is free, [Kernel::add] returns
    true, appends the module and its dependency list at the end of the two
    vectors, whatever the dependency names are, and afterwards
    [Kernel::find] gives the new module under its name and what it gave
    before under every other name. *)
Theorem add_then_find module deps p :
  status p = IDLE → find (modules p) (name module) = None →
  ∃ p' log,
    add module deps p = (true, p', log) ∧
    modules p' = modules p ++ [module] ∧
    modulesAndDependencies p' = modulesAndDependencies p ++ [(module, deps)] ∧
    ∀ n, find (modules p') n
         = if decide (n = name module) then Some module else find (modules p) n.
Proof.
  intros Hst Hfree. unfold add.
  rewrite decide_False by (by rewrite Hst; intros []). rewrite Hfree.
  eexists _, _. split_and!; [done..|]. simpl. intros n. rewrite find_snoc.
  destruct (decide (n = name module)) as [->|Hn].
  - rewrite Hfree. by rewrite decide_True.
  - destruct (find (modules p) n); [done|]. rewrite decide_False; [done|congruence].
Qed.

(** X6. On an idle kernel with consistent vectors and unique names,
    [Kernel::remove] of a registered name hands back the module that
    [Kernel::find] gives for it; afterwards [Kernel::find] gives nothing
    for that name and what it gave before for every other name. *)
Theorem remove_then_find n p m :
  consistent p → names_unique (modulesAndDependencies p) → status p = IDLE →
  find (modules p) n = Some m →
  ∃ p' log,
    remove n p = Returned (Some m, p', log) ∧
    find (modules p') n = None ∧
    ∀ n', n' ≠ n → find (modules p') n' = find (modules p) n'.
Proof.
  intros Hcons Huniq Hst Hfind.
  destruct (find_list_find _ _ _ Hfind) as [i Hlf].
  rewrite (remove_found _ _ _ _ Hcons Hst Hlf).
  apply list_find_Some in Hlf as (Hi & Hname & _).
  pose proof (swap_pop_Permutation _ _ _ Hi) as Hperm.
  unfold names_unique in Huniq. rewrite Hcons in Huniq.
  assert (Hnd : NoDup (name <$> m :: swap_pop i (modules p))) by (by rewrite <- Hperm).
  rewrite fmap_cons in Hnd. apply NoDup_cons in Hnd as [Hfresh Hnd'].
  eexists _, _. split_and!; [done| |]; simpl.
  - apply find_None. intros x Hx Hxn. apply Hfresh.
    apply list_elem_of_fmap. exists x. split; [congruence|done].
  - assert (Hmem : ∀ x, x ∈ modules p ↔ x = m ∨ x ∈ swap_pop i (modules p)).
    { intros x. by rewrite Hperm at 1; rewrite elem_of_cons. }
    intros n' Hn'. apply find_ext; [done..|].
    intros x Hx. rewrite Hmem. split; [tauto|].
    intros [->|?]; [congruence|done].
Qed.

(** X7. A module handed back by [Kernel::remove] has the requested name,
    and the two vectors afterwards hold what they held before minus that
    module and its dependency list. *)
Theorem remove_takes_one n p m p' log :
  consistent p →
  remove n p = Returned (Some m, p', log) →
  name m = n ∧
  modules p ≡ₚ m :: modules p' ∧
  ∃ ds, modulesAndDependencies p ≡ₚ (m, ds) :: modulesAndDependencies p'.
Proof.
  intros Hcons. unfold remove. case_decide as Hst; [done|].
  destruct (list_find _ (modules p)) as [[i m']|] eqn:Hfind; [|done].
  apply list_find_Some in Hfind as (Hi & Hname & _).
  destruct (consistent_lookup _ _ _ Hcons Hi) as [ds Hmd].
  rewrite Hmd. simpl. rewrite decide_True by done. intros [= <- <- _]. simpl.
  split_and!; [done|by apply swap_pop_Permutation|].
  exists ds. by apply swap_pop_Permutation.
Qed.

Lemma remove_null_unchanged n p p' log :
  remove n p = Returned (None, p', log) → p' = p.
Proof.
  unfold remove. case_decide; [by intros [= <- _]|].
  destruct (list_find _ (modules p)) as [[i m]|]; [|by intros [= <- _]].
  destruct (modulesAndDependencies p !! i) as [md|]; simpl; [|done].
  by case_decide.
Qed.

(** X8. [Kernel::remove] returns [nullptr] exactly when the kernel is not
    idle or no registered module has the name, and it then leaves the
    kernel as it was. *)
Theorem remove_null_iff n p :
  consistent p →
  ((∃ p' log, remove n p = Returned (None, p', log)) ↔
   (status p ≠ IDLE ∨ find (modules p) n = None)) ∧
  (∀ p' log, remove n p = Returned (None, p', log) → p' = p).
Proof.
  intros Hcons. split; [split|].
  - intros (p' & log & Hrun). destruct (decide (status p = IDLE)) as [Hst|]; [|by left].
    right. destruct (find (modules p) n) as [m|] eqn:Hfind; [|done].
    destruct (find_list_find _ _ _ Hfind) as [i Hlf].
    by rewrite (remove_found _ _ _ _ Hcons Hst Hlf) in Hrun.
  - intros [Hst|Hfind]; unfold remove.
    + rewrite decide_True by done. by eexists _, _.
    + case_decide; [by eexists _, _|].
      unfold find in Hfind. apply fmap_None in Hfind. rewrite Hfind. by eexists _, _.
  - intros p' log. apply remove_null_unchanged.
Qed.



(** X10. Removing the module that was just added gives back that module
    and the kernel as it was before the [Kernel::add]. *)
Theorem add_then_remove module deps p :
  consistent p → status p = IDLE → find (modules p) (name module) = None →
  ∃ log, remove (name module) (add module deps p).1.2
         = Returned (Some module, p, log).
Proof.
  intros Hcons Hst Hfree.
  set (p' := mkKernelImpl (status p) (modules p ++ [module])
               (modulesAndDependencies p ++ [(module, deps)]) (kernelThread p)).
  assert (Hadd : (add module deps p).1.2 = p').
  { unfold add. rewrite decide_False by (by rewrite Hst; intros []).
    by rewrite Hfree. }
  rewrite Hadd.
  assert (Hms : modules p' = modules p ++ [module]) by done.
  assert (Hmads : modulesAndDependencies p'
                  = modulesAndDependencies p ++ [(module, deps)]) by done.
  assert (Hcons' : consistent p').
  { unfold consistent. by rewrite Hms, Hmads, fmap_app, Hcons. }
  assert (Hst' : status p' = IDLE) by done.
  assert (Hkt : kernelThread p' = kernelThread p) by done.
  assert (Hlf : list_find (λ m, name m = name module) (modules p')
                = Some (length (modules p), module)).
  { apply list_find_Some. rewrite Hms. split_and!.
    - by rewrite lookup_app_r, Nat.sub_diag by lia.
    - done.
    - intros j y Hj Hlt Hy. rewrite lookup_app_l in Hj by done.
      rewrite find_None in Hfree. apply (Hfree y); [|done].
      by eapply list_elem_of_lookup_2. }
  rewrite (remove_found _ _ _ _ Hcons' Hst' Hlf). eexists. do 2 f_equal.
  assert (Hpop : ∀ {A} (l : list A) x, swap_pop (length l) (l ++ [x]) = l).
  { intros A l x. unfold swap_pop. rewrite last_snoc, length_app. simpl.
    replace (length l + 1 - 1) with (length l) by lia.
    rewrite insert_app_r_alt, Nat.sub_diag by lia. simpl. apply take_app_length. }
  rewrite Hms, Hmads, Hkt.
  replace (length (modules p)) with (length (modulesAndDependencies p)) at 2
    by (by rewrite <- Hcons, length_fmap).
  rewrite !Hpop. destruct p as [st ms mads kt]. simpl in *. by subst st.
Qed.

Lemma run_ops_invariant ops p0 :
  status p0 = IDLE → kernelThread p0 = false →
  consistent p0 → names_unique (modulesAndDependencies p0) →
  ∃ p, run_ops ops p0 = Returned p ∧
       status p = IDLE ∧ kernelThread p = false ∧
       consistent p ∧ names_unique (modulesAndDependencies p).
Proof.
  revert p0. induction ops as [|op ops IH]; intros p0 Hst Hkt Hcons Huniq; simpl.
  - by exists p0.
  - destruct op as [module deps|n]; simpl.
    + apply IH.
      * unfold add. case_decide; [done|]. by destruct (find _ _).
      * unfold add. case_decide; [done|]. by destruct (find _ _).
      * by apply add_consistent.
      * by apply add_names_unique.
    + destruct (remove_cases n p0 Hcons) as (r & p' & log & Hrun & Hc & Hu & _).
      rewrite Hrun. simpl.
      apply remove_keeps_status in Hrun as [Hst' Hkt'].
      apply IH; [congruence|congruence|done|by apply Hu].
Qed.

(** X11. Every sequence of calls of [Kernel::add] and [Kernel::remove] on
    a new kernel comes back; the kernel it leaves is idle and owns no
    thread, its two vectors agree index by index and its module names are
    unique. *)
Theorem registry_ops_invariant ops :
  ∃ p, run_ops ops new_kernel = Returned p ∧
       status p = IDLE ∧ kernelThread p = false ∧
       consistent p ∧ names_unique (modulesAndDependencies p).
Proof. apply run_ops_invariant; try done; apply new_kernel_consistent. Qed.

(** X12. The destructor of a kernel on which only [Kernel::add] and
    [Kernel::remove] were called, and [Kernel::start] never, dereferences
    the null [kernelThread]. *)
Theorem destroy_never_started ops :
  ∃ p, run_ops ops new_kernel = Returned p ∧ KernelImpl_destroy p = Stuck.
Proof.
  destruct (run_ops_invariant ops new_kernel) as (p & Hrun & _ & Hkt & _);
    try done; try apply new_kernel_consistent.
  exists p. split; [done|]. unfold KernelImpl_destroy. simpl. by rewrite Hkt.
Qed.

(** ** Further properties of the start and stop protocol *)

Lemma passes_snoc k (sm : list Mod) : passes k sm ++ sm = passes (S k) sm.
Proof.
  unfold passes. induction k as [|k IH]; simpl.
  - by rewrite app_nil_r.
  - rewrite <- app_assoc. by rewrite IH.
Qed.

Lemma trace_shape_step p0 a c :
  start_inv p0 c → trace_shape c → trace_shape (step a c).
Proof.
  destruct c as [[st ms mads kt] w pc tr tm]. unfold step. simpl.
  intros (_ & _ & Hpc). simpl in Hpc.
  destruct tm; [done|]. intros Hsh. destruct a.
  - unfold Kernel_start. simpl. destruct pc; simpl; try done.
    + destruct w as [w|]; [by destruct Hpc as [_ ?]|].
      destruct Hpc as (-> & -> & _). done.
    + case_decide; done.
  - destruct w as [[wp sm]|]; [|done].
    unfold KernelImpl_start, trace_shape in *. simpl in *.
    destruct wp as [|[|m todo]| |[|m todo]|[|m todo]|]; simpl in *.
    + subst tr. destruct (sort mads) as [[order|]|]; simpl; [by exists []|by left|done].
    + destruct Hsh as (dn & -> & ->). exists 0. rewrite app_nil_r. simpl.
      by rewrite app_nil_r.
    + destruct Hsh as (dn & -> & ->). exists (dn ++ [m]).
      by rewrite <- app_assoc, fmap_app.
    + destruct Hsh as (k & ->). case_decide; simpl.
      * exists k, []. by rewrite app_nil_r.
      * exists k, []. simpl. by rewrite app_nil_r.
    + destruct Hsh as (k & dn & Hsm & ->). rewrite app_nil_r in Hsm. subst dn.
      exists (S k). by rewrite passes_snoc.
    + destruct Hsh as (k & dn & -> & ->). exists k, (dn ++ [m]). split.
      * by rewrite <- app_assoc.
      * rewrite !fmap_app, <- !app_assoc. done.
    + destruct Hsh as (k & dn & Hrev & ->). rewrite app_nil_r in Hrev. subst dn.
      right. by exists k.
    + destruct Hsh as (k & dn & Hrev & ->). exists k, (dn ++ [m]). split.
      * by rewrite <- app_assoc.
      * rewrite !fmap_app, <- !app_assoc. done.
    + done.
  - unfold Kernel_stop. simpl. destruct pc; done.
Qed.

Lemma trace_shape_exec p0 s :
  kernelThread p0 = false → trace_shape (exec s (start_config p0)).
Proof.
  intros Hkt.
  assert (Hgen : ∀ c, start_inv p0 c → trace_shape c → trace_shape (exec s c)).
  { induction s as [|a s IH]; intros c Hinv Hsh; [done|].
    simpl. apply IH; [by apply step_inv|by eapply trace_shape_step]. }
  apply Hgen; [by apply start_config_inv|done].
Qed.

(** X13. A result of [Kernel::start] is true only when every declared name
    resolves and the dependency relation has no cycle; in a run during
    which [Kernel::stop] is not called it is true exactly then. *)
Theorem start_result_iff p0 s b :
  names_unique (modulesAndDependencies p0) →
  start_returned (exec s (start_config p0)) = Some b →
  (b = true →
   resolved (modulesAndDependencies p0) ∧ acyclic (modulesAndDependencies p0)) ∧
  (AStop ∉ s →
   resolved (modulesAndDependencies p0) ∧ acyclic (modulesAndDependencies p0) →
   b = true).
Proof.
  intros Huniq Hret.
  pose proof (returned_first_start _ _ _ Hret) as Hkt.
  pose proof (exec_inv p0 s _ (start_config_inv p0 Hkt)) as Hinv.
  split.
  - intros ->.
    destruct (start_inv_returned _ _ Hinv Hret) as [(order & Hsort & _) _]. split.
    + destruct (sort_cases (modulesAndDependencies p0))
        as [[Hnone _]|(g0 & g & dn & Hres & _)]; [congruence|done].
    + eapply topological_acyclic. by apply sort_sound.
  - intros Hs [Hres Hacyc].
    destruct (quiet_exec p0 s _ Hs (start_config_inv p0 Hkt) (start_config_quiet p0))
      as [_ Hq].
    destruct (quiet_returned _ _ _ Hinv Hq Hret) as (_ & _ & Htrue).
    apply Htrue. by apply sort_complete.
Qed.

(** X14. In a run of [Kernel::start] during which [Kernel::stop] is not
    called, the worker calls no [halt], and it exits only when [sort]
    returned false, without having called any hook. *)
Theorem no_halt_before_stop p0 s :
  AStop ∉ s →
  halts (trace (exec s (start_config p0))) = [] ∧
  (worker_exited (exec s (start_config p0)) →
   sort (modulesAndDependencies p0) = Returned None ∧
   trace (exec s (start_config p0)) = []).
Proof.
  intros Hs. destruct (kernelThread p0) eqn:Hkt.
  - destruct (restart_never_returns p0 s Hkt) as (_ & Hw & ->).
    split; [done|]. intros (w & Hw' & _). congruence.
  - destruct (quiet_exec p0 s _ Hs (start_config_inv p0 Hkt) (start_config_quiet p0))
      as [Hinv Hq].
    by apply quiet_no_halt.
Qed.

(** X15. Once the controlling thread is back from [Kernel::start] with the
    result true, [Kernel::status] reads RUNNING until [Kernel::stop] is
    called and IDLE from then on, whatever the worker does; in a run during
    which [Kernel::stop] is not called at all, it also reads IDLE after the
    result false. *)
Theorem status_after_start p0 s :
  (caller (exec s (start_config p0)) = CReturned true →
   status (impl (exec s (start_config p0))) = RUNNING) ∧
  (caller (exec s (start_config p0)) = CStopped true →
   status (impl (exec s (start_config p0))) = IDLE) ∧
  (AStop ∉ s →
   ∀ b, start_returned (exec s (start_config p0)) = Some b →
        caller (exec s (start_config p0)) = CReturned b ∧
        status (impl (exec s (start_config p0))) = if b then RUNNING else IDLE).
Proof.
  assert (Hinv : ∀ b, start_returned (exec s (start_config p0)) = Some b →
                      start_inv p0 (exec s (start_config p0))).
  { intros b Hret. apply exec_inv, start_config_inv.
    by eapply returned_first_start. }
  split_and!.
  - intros Hcaller.
    assert (Hret : start_returned (exec s (start_config p0)) = Some true).
    { unfold start_returned. by rewrite Hcaller. }
    by apply (start_inv_returned _ _ (Hinv _ Hret) Hret).
  - intros Hcaller.
    assert (Hret : start_returned (exec s (start_config p0)) = Some true).
    { unfold start_returned. by rewrite Hcaller. }
    destruct (Hinv _ Hret) as (_ & _ & Hw).
    destruct (worker (exec s (start_config p0))) as [w|].
    + destruct Hw as [_ Hc]. unfold caller_ok in Hc. rewrite Hcaller in Hc. tauto.
    + rewrite Hcaller in Hw. tauto.
  - intros Hs b Hret.
    pose proof (returned_first_start _ _ _ Hret) as Hkt.
    destruct (quiet_exec p0 s _ Hs (start_config_inv p0 Hkt) (start_config_quiet p0))
      as [Hi Hq].
    destruct (quiet_returned _ _ _ Hi Hq Hret) as (Hc & Hst & _). done.
Qed.

(** X16. When the worker has exited on a kernel started for the first
    time, either no hook was called, or the calls were, in this order:
    [init] on every module in sorted order, a number of full [tick] passes
    in that same order, and [halt] on every module in the reverse order. *)
Theorem hooks_in_phases p0 s :
  kernelThread p0 = false →
  worker_exited (exec s (start_config p0)) →
  trace (exec s (start_config p0)) = [] ∨
  ∃ order k,
    sort (modulesAndDependencies p0) = Returned (Some order) ∧
    trace (exec s (start_config p0))
    = (Init <$> order) ++ (Tick <$> passes k order) ++ (Halt <$> rev order).
Proof.
  intros Hkt (w & Hw & Hexit).
  pose proof (exec_inv p0 s _ (start_config_inv p0 Hkt)) as Hinv.
  assert (Hsh : trace_shape (exec s (start_config p0))).
  { by apply trace_shape_exec. }
  unfold trace_shape in Hsh. rewrite Hw, Hexit in Hsh.
  destruct Hsh as [Hnil|[k Htr]]; [by left|].
  destruct (start_inv_spawned _ _ _ Hinv Hw) as [Hok _].
  unfold worker_ok in Hok. rewrite Hexit in Hok.
  destruct Hok as (_ & [(_ & Hnil)|(Hsort & _)]); [by left|].
  right. by exists (sortedModules w), k.
Qed.

(** X17. While the worker is in its tick loop, the hooks called so far are
    [init] on every module in sorted order, then full [tick] passes in that
    order, then the part of the current pass already made. *)
Theorem ticks_in_passes p0 s w todo :
  kernelThread p0 = false →
  worker (exec s (start_config p0)) = Some w →
  wpc w = WTick todo →
  ∃ k dn,
    sort (modulesAndDependencies p0) = Returned (Some (dn ++ todo)) ∧
    trace (exec s (start_config p0))
    = (Init <$> (dn ++ todo)) ++ (Tick <$> (passes k (dn ++ todo) ++ dn)).
Proof.
  intros Hkt Hw Hpc.
  pose proof (exec_inv p0 s _ (start_config_inv p0 Hkt)) as Hinv.
  assert (Hsh : trace_shape (exec s (start_config p0))).
  { by apply trace_shape_exec. }
  unfold trace_shape in Hsh. rewrite Hw, Hpc in Hsh.
  destruct Hsh as (k & dn & Hsm & Htr).
  destruct (start_inv_spawned _ _ _ Hinv Hw) as [Hok _].
  unfold worker_ok in Hok. rewrite Hpc in Hok.
  destruct Hok as ((Hsort & _) & _).
  exists k, dn. rewrite <- Hsm. done.
Qed.

(** X18. No step of [Kernel::start], of the worker or of [Kernel::stop]
    changes the two vectors of the registry. *)
Theorem run_keeps_registry s c :
  modules (impl (exec s c)) = modules (impl c) ∧
  modulesAndDependencies (impl (exec s c)) = modulesAndDependencies (impl c).
Proof.
  revert c. induction s as [|a s IH]; intros c; [done|]. simpl.
  destruct (IH (step a c)) as [-> ->]. clear IH.
  destruct c as [[st ms mads kt] w pc tr tm]. unfold step. simpl.
  destruct tm; [done|]. destruct a.
  - unfold Kernel_start. simpl. destruct pc; simpl; try done.
    + by destruct kt.
    + by case_decide.
  - destruct w as [[wp sm]|]; [|done]. unfold KernelImpl_start. simpl.
    destruct wp as [|[|m todo]| |[|m todo]|[|m todo]|]; simpl; try done.
    + by destruct (sort mads) as [[?|]|].
    + by case_decide.
  - unfold Kernel_stop. simpl. by destruct pc.
Qed.

(** X19. A second call of [Kernel::start] on a kernel ends in
    [std::terminate]: after a first call that got as far as creating the
    worker, the kernel owns a thread object, and the controlling thread of
    the next call destroys it, still joinable, at its second step. *)
Theorem second_start_terminates p0 s s' :
  kernelThread p0 = false →
  2 ≤ count_action ACaller s →
  2 ≤ count_action ACaller s' →
  kernelThread (impl (exec s (start_config p0))) = true ∧
  terminated (exec s' (start_config (impl (exec s (start_config p0))))) = true.
Proof.
  intros Hkt Hs Hs'.
  pose proof (thread_owned p0 s Hkt Hs) as Hown.
  split; [done|]. by apply restart_terminates.
Qed.

(** X20. On a kernel started for the first time whose dependency relation
    has a cycle, whatever the schedule and wherever [Kernel::stop] is
    called, no hook of any module is called, a call of [Kernel::start]
    that has returned has returned false with the status at IDLE, and under
    a fair schedule the call does return. *)
Theorem first_start_rejects_cycle p0 s :
  names_unique (modulesAndDependencies p0) →
  kernelThread p0 = false →
  has_cycle (modulesAndDependencies p0) →
  trace (exec s (start_config p0)) = [] ∧
  (∀ b, start_returned (exec s (start_config p0)) = Some b →
        b = false ∧ status (impl (exec s (start_config p0))) = IDLE) ∧
  (fair_start (length (modulesAndDependencies p0) + 2) s →
   start_returned (exec s (start_config p0)) = Some false).
Proof.
  intros Huniq Hkt Hcyc.
  pose proof (sort_cycle _ Huniq Hcyc) as Hsort.
  pose proof (exec_inv p0 s _ (start_config_inv p0 Hkt)) as Hinv.
  destruct (start_inv_trace_nil _ _ Hinv Hsort) as [Htr Hret].
  split_and!; [done..|].
  intros Hfair. destruct (start_returns p0 s Hkt Hfair) as [b Hb].
  by destruct (Hret b Hb) as [-> _].
Qed.

(** X21. On a kernel started for the first time in which a module declares
    a dependency name that is the name of no registered module, whatever
    the schedule and wherever [Kernel::stop] is called, no hook of any
    module is called, a call of [Kernel::start] that has returned has
    returned false with the status at IDLE, and under a fair schedule the
    call does return. *)
Theorem first_start_rejects_unknown_dependency p0 s :
  kernelThread p0 = false →
  unresolved (modulesAndDependencies p0) →
  trace (exec s (start_config p0)) = [] ∧
  (∀ b, start_returned (exec s (start_config p0)) = Some b →
        b = false ∧ status (impl (exec s (start_config p0))) = IDLE) ∧
  (fair_start (length (modulesAndDependencies p0) + 2) s →
   start_returned (exec s (start_config p0)) = Some false).
Proof.
  intros Hkt Hun.
  pose proof (sort_unresolved _ Hun) as Hsort.
  pose proof (exec_inv p0 s _ (start_config_inv p0 Hkt)) as Hinv.
  destruct (start_inv_trace_nil _ _ Hinv Hsort) as [Htr Hret].
  split_and!; [done..|].
  intros Hfair. destruct (start_returns p0 s Hkt Hfair) as [b Hb].
  by destruct (Hret b Hb) as [-> _].
Qed.

(** X22. With no module registered, [sort] returns true with the empty
    order and no hook is ever called; on a kernel started for the first
    time, in a run during which [Kernel::stop] is not called, a call of
    [Kernel::start] that has returned has returned true with the status
    RUNNING, and under a fair schedule the call does return. *)
Theorem first_start_empty_registry p0 s :
  modulesAndDependencies p0 = [] →
  kernelThread p0 = false →
  AStop ∉ s →
  sort (modulesAndDependencies p0) = Returned (Some []) ∧
  trace (exec s (start_config p0)) = [] ∧
  (∀ b, start_returned (exec s (start_config p0)) = Some b →
        b = true ∧ status (impl (exec s (start_config p0))) = RUNNING) ∧
  (fair_start 2 s → start_returned (exec s (start_config p0)) = Some true).
Proof.
  intros Hnil Hkt Hs.
  assert (Hsort : sort (modulesAndDependencies p0) = Returned (Some [])).
  { rewrite Hnil. apply sort_nil. }
  destruct (quiet_exec p0 s _ Hs (start_config_inv p0 Hkt) (start_config_quiet p0))
    as [Hinv Hq].
  assert (Hempty : empty_inv (exec s (start_config p0))).
  { apply empty_inv_exec. unfold empty_inv, start_config. simpl. done. }
  assert (Hret : ∀ b, start_returned (exec s (start_config p0)) = Some b →
                      b = true ∧ status (impl (exec s (start_config p0))) = RUNNING).
  { intros b Hb. destruct (quiet_returned _ _ _ Hinv Hq Hb) as (_ & Hst & Htrue).
    assert (b = true) as -> by (apply Htrue; by eexists). done. }
  split_and!; [done|apply Hempty|done|].
  intros Hfair. destruct (start_returns p0 s Hkt) as [b Hb].
  { by rewrite Hnil. }
  by destruct (Hret b Hb) as [-> _].
Qed.

Lemma init_loop_runs sm todo c :
  terminated c = false → worker c = Some (mkWorker (WInit todo) sm) →
  exec (replicate (length todo) AWorker) c
  = mkConfig (impl c) (Some (mkWorker (WInit []) sm)) (caller c)
      (trace c ++ (Init <$> todo)) false.
Proof.
  revert c. induction todo as [|m todo IH]; intros c Htm Hw.
  - simpl. rewrite app_nil_r. destruct c; simpl in *. by subst.
  - simpl. rewrite IH.
    + unfold step. rewrite Htm, Hw. unfold KernelImpl_start. simpl.
      by rewrite <- app_assoc.
    + unfold step. rewrite Htm, Hw. done.
    + unfold step. rewrite Htm, Hw. done.
Qed.

(** X23. A call of [Kernel::stop] made while [Kernel::start] is under way
    is lost.  On a kernel started for the first time whose registry
    [sort] accepts, when the call comes after the worker was created and
    before the controlling thread polls, [Kernel::start] returns false,
    and the worker still calls [init] on every module, in sorted order,
    and stores RUNNING over the IDLE (line 172): the kernel runs although
    [Kernel::start] has reported a failure. *)
Theorem stop_during_start_lost p0 order :
  kernelThread p0 = false →
  sort (modulesAndDependencies p0) = Returned (Some order) →
  start_returned
    (exec ([ACaller; ACaller; AStop; ACaller; ACaller; AWorker]
           ++ replicate (length order) AWorker ++ [AWorker])
       (start_config p0)) = Some false ∧
  status (impl
    (exec ([ACaller; ACaller; AStop; ACaller; ACaller; AWorker]
           ++ replicate (length order) AWorker ++ [AWorker])
       (start_config p0))) = RUNNING ∧
  trace
    (exec ([ACaller; ACaller; AStop; ACaller; ACaller; AWorker]
           ++ replicate (length order) AWorker ++ [AWorker])
       (start_config p0)) = Init <$> order.
Proof.
  intros Hkt Hsort. destruct p0 as [st ms mads kt]. simpl in Hkt, Hsort. subst kt.
  rewrite !exec_app.
  assert (Hpre : exec [ACaller; ACaller; AStop; ACaller; ACaller; AWorker]
                   (start_config (mkKernelImpl st ms mads false))
                 = mkConfig (mkKernelImpl IDLE ms mads true)
                     (Some (mkWorker (WInit order) order)) (CReturned false) [] false).
  { change [ACaller; ACaller; AStop; ACaller; ACaller; AWorker]
      with ([ACaller; ACaller; AStop; ACaller; ACaller] ++ [AWorker]).
    rewrite exec_app.
    assert (exec [ACaller; ACaller; AStop; ACaller; ACaller]
              (start_config (mkKernelImpl st ms mads false))
            = mkConfig (mkKernelImpl IDLE ms mads true)
                (Some (mkWorker WSort [])) (CReturned false) [] false) as ->
      by reflexivity.
    unfold exec, step, KernelImpl_start. cbn -[sort]. by rewrite Hsort. }
  rewrite Hpre, (init_loop_runs order) by done. done.
Qed.

End Kernel.

(** ** The properties on concrete registries *)

Lemma demo_schedule_fair n : fair_start n (demo_schedule n).
Proof.
  exists [ACaller; ACaller], (replicate n AWorker), [ACaller; ACaller].
  split_and!; [done|by vm_compute| |by vm_compute].
  induction n as [|n IH]; [done|].
  change (replicate (S n) AWorker) with (AWorker :: replicate n AWorker).
  rewrite count_action_cons. simpl. lia.
Qed.

Lemma demo_tree_unique : names_unique demo_name demo_tree.
Proof. unfold names_unique. apply (bool_decide_unpack _). by vm_compute. Qed.

Lemma sort_acyclic_topological_witness :
  names_unique demo_name demo_tree ∧
  resolved demo_name demo_tree ∧
  acyclic demo_name demo_tree ∧
  ∃ order,
    sort demo_name demo_sched demo_tree = Returned (Some order) ∧
    order ≡ₚ demo_tree.*1 ∧ NoDup order ∧
    ∀ m d, depends_on demo_name demo_tree m d → before order d m.
Proof.
  assert (H1 : names_unique demo_name demo_tree) by exact demo_tree_unique.
  assert (H2 : resolved demo_name demo_tree)
    by (apply resolvedb_resolved; reflexivity).
  assert (H3 : acyclic demo_name demo_tree)
    by (apply (rankedb_acyclic demo_name (λ m, m)); reflexivity).
  split_and!; [done..|].
  exact (sort_acyclic_topological demo_name demo_sched demo_tree H1 H2 H3).
Defined.

Lemma demo_cycle_has_cycle : has_cycle demo_name demo_cycle.
Proof.
  exists 0. eapply tc_l; [|apply tc_once].
  - instantiate (1 := 1). split; [by right; left|].
    exists ["B"]. split; by left.
  - split; [by left|]. exists ["A"]. split; [by right; left|by left].
Qed.

(** C2. On the registry in which A depends on B and B on A, a first call
    of [Kernel::start] returns false with the status back at IDLE and no
    hook called.  Any further call of [Kernel::start] on that kernel, whose
    registry still has the cycle, does not return false: it never returns,
    and the second step of the controlling thread, which destroys the
    thread object of the first call while it is still joinable (line 270),
    ends the process. *)
Theorem restart_on_cycle_terminates :
  let c1 := exec demo_name demo_sched (demo_schedule 4)
              (start_config (demo_kernel demo_cycle)) in
  start_returned c1 = Some false ∧ status (impl c1) = IDLE ∧ trace c1 = [] ∧
  has_cycle demo_name (modulesAndDependencies (impl c1)) ∧
  ∀ s, start_returned (exec demo_name demo_sched s (start_config (impl c1))) = None ∧
       (2 ≤ count_action ACaller s →
        terminated (exec demo_name demo_sched s (start_config (impl c1))) = true).
Proof.
  simpl. split_and!; [by vm_compute..|exact demo_cycle_has_cycle|].
  intros s. split.
  - by apply restart_never_returns.
  - by apply restart_terminates.
Qed.

Lemma start_true_initialised_witness :
  consistent (demo_kernel demo_tree) ∧
  names_unique demo_name (modulesAndDependencies (demo_kernel demo_tree)) ∧
  kernelThread (demo_kernel demo_tree) = false ∧
  start_returned (exec demo_name demo_sched (demo_schedule 5)
                    (start_config (demo_kernel demo_tree))) = Some true ∧
  inits (trace (exec demo_name demo_sched (demo_schedule 5)
                  (start_config (demo_kernel demo_tree))))
    ≡ₚ modules (demo_kernel demo_tree) ∧
  status (impl (exec demo_name demo_sched (demo_schedule 5)
                  (start_config (demo_kernel demo_tree)))) = RUNNING.
Proof.
  assert (H1 : consistent (demo_kernel demo_tree)) by reflexivity.
  assert (H2 : names_unique demo_name (modulesAndDependencies (demo_kernel demo_tree)))
    by exact demo_tree_unique.
  assert (H3 : kernelThread (demo_kernel demo_tree) = false) by reflexivity.
  assert (H4 : start_returned (exec demo_name demo_sched (demo_schedule 5)
                  (start_config (demo_kernel demo_tree))) = Some true)
    by (vm_compute; reflexivity).
  destruct (start_true_initialised demo_name demo_sched (demo_kernel demo_tree)
              (demo_schedule 5) H1 H2 H3 H4) as (Hperm & _ & _ & Hst).
  split_and!; [done..|]. apply Hst. vm_compute. reflexivity.
Defined.


Lemma demo_unknown_unresolved : unresolved demo_name demo_unknown.
Proof.
  exists 0, "Z". split.
  - exists ["Z"]. split; by left.
  - intros d Hd. apply list_elem_of_singleton in Hd. by subst d.
Qed.

(** C5. On the registry whose only module declares a dependency on the
    name Z, which no module has, a first call of [Kernel::start] returns
    false with the status at IDLE and no hook called.  Any further call of
    [Kernel::start] on that kernel, whose registry still has the unknown
    name, does not return false: it never returns, and the second step of
    the controlling thread, which destroys the thread object of the first
    call while it is still joinable (line 270), ends the process. *)
Theorem restart_on_unknown_dependency_terminates :
  let c1 := exec demo_name demo_sched (demo_schedule 3)
              (start_config (demo_kernel demo_unknown)) in
  start_returned c1 = Some false ∧ status (impl c1) = IDLE ∧ trace c1 = [] ∧
  unresolved demo_name (modulesAndDependencies (impl c1)) ∧
  ∀ s, start_returned (exec demo_name demo_sched s (start_config (impl c1))) = None ∧
       (2 ≤ count_action ACaller s →
        terminated (exec demo_name demo_sched s (start_config (impl c1))) = true).
Proof.
  simpl. split_and!; [by vm_compute..|exact demo_unknown_unresolved|].
  intros s. split.
  - by apply restart_never_returns.
  - by apply restart_terminates.
Qed.

Lemma mutation_needs_idle_witness :
  status (mkKernelImpl RUNNING [0] [(0, [])] true) ≠ IDLE ∧
  (∃ log, add demo_name 1 ["A"] (mkKernelImpl RUNNING [0] [(0, [])] true)
          = (false, mkKernelImpl RUNNING [0] [(0, [])] true, log)) ∧
  (∃ log, remove demo_name "A" (mkKernelImpl RUNNING [0] [(0, [])] true)
          = Returned (None, mkKernelImpl RUNNING [0] [(0, [])] true, log)).
Proof.
  assert (H1 : status (mkKernelImpl RUNNING [0] [(0, [])] true) ≠ IDLE) by discriminate.
  destruct (mutation_needs_idle demo_name (mkKernelImpl RUNNING [0] [(0, [])] true) H1)
    as [Hadd Hremove].
  split_and!; [done|apply Hadd|apply Hremove].
Defined.

Lemma add_rejects_existing_name_witness :
  0 ∈ modules (demo_kernel demo_tree) ∧
  demo_name 0 = demo_name 3 ∧
  ∃ log, add demo_name 3 ["B"] (demo_kernel demo_tree)
         = (false, demo_kernel demo_tree, log).
Proof.
  assert (H1 : 0 ∈ modules (demo_kernel demo_tree)) by (by left).
  assert (H2 : demo_name 0 = demo_name 3) by reflexivity.
  split_and!; [done..|].
  exact (add_rejects_existing_name demo_name (demo_kernel demo_tree) 3 ["B"] 0 H1 H2).
Defined.

Lemma sort_ignores_multiplicity_witness :
  same_names [(0, []); (1, ["A"; "A"])] [(0, []); (1, ["A"])] ∧
  sort demo_name demo_sched [(0, []); (1, ["A"; "A"])]
  = sort demo_name demo_sched [(0, []); (1, ["A"])].
Proof.
  assert (H1 : same_names [(0, []); (1, ["A"; "A"])] [(0, []); (1, ["A"])]).
  { unfold same_names. constructor; [by split|].
    constructor; [|by constructor]. split; [done|]. simpl. intros nm. split.
    - intros Hin. apply elem_of_cons in Hin as [->|Hin]; [by left|done].
    - intros Hin. by right. }
  split; [done|].
  exact (sort_ignores_multiplicity demo_name demo_sched _ _ H1).
Defined.

Lemma bookkeeping_stays_consistent_witness :
  consistent (demo_kernel demo_tree) ∧
  consistent (add demo_name 4 ["A"] (demo_kernel demo_tree)).1.2 ∧
  ∃ r p' log,
    remove demo_name "A" (demo_kernel demo_tree) = Returned (r, p', log) ∧
    consistent p' ∧
    (LOG_ERROR, "Kernel::remove: internal error: inconsistent module arrays") ∉ log.
Proof.
  assert (H1 : consistent (demo_kernel demo_tree)) by reflexivity.
  destruct (bookkeeping_stays_consistent demo_name (demo_kernel demo_tree) H1)
    as [Hadd Hremove].
  split_and!; [done|apply Hadd|apply Hremove].
Defined.

(** C10. On a kernel with no module, a first call of [Kernel::start]
    returns true with the status RUNNING and no hook called, and after
    [Kernel::stop] the worker exits with the status at IDLE.  A further
    call of [Kernel::start] on that kernel, still with no module, does not
    return true: it never returns, and the second step of the controlling
    thread, which destroys the thread object of the first call while it is
    still joinable (line 270), ends the process. *)
Theorem restart_on_empty_registry_terminates :
  let c0 := exec demo_name demo_sched (demo_schedule 2) (start_config new_kernel) in
  let c1 := exec demo_name demo_sched ([AStop] ++ replicate 3 AWorker) c0 in
  start_returned c0 = Some true ∧ status (impl c0) = RUNNING ∧
  worker_exited c1 ∧ status (impl c1) = IDLE ∧ trace c1 = [] ∧
  modulesAndDependencies (impl c1) = [] ∧
  ∀ s, start_returned (exec demo_name demo_sched s (start_config (impl c1))) = None ∧
       (2 ≤ count_action ACaller s →
        terminated (exec demo_name demo_sched s (start_config (impl c1))) = true).
Proof.
  simpl. split_and!; try (by vm_compute).
  - exists (mkWorker WExit []). by vm_compute.
  - intros s. split.
    + by apply restart_never_returns.
    + by apply restart_terminates.
Qed.

(** ** Runs on the concrete registries *)

Example sort_demo_tree :
  sort demo_name demo_sched demo_tree = Returned (Some [0; 2; 1]).
Proof. reflexivity. Qed.

Example sort_demo_tree_other_choice :
  sort demo_name (λ _, 1) demo_tree = Returned (Some [0; 1; 2]).
Proof. reflexivity. Qed.

Example sort_demo_cycle : sort demo_name demo_sched demo_cycle = Returned None.
Proof. reflexivity. Qed.

Example sort_demo_unknown : sort demo_name demo_sched demo_unknown = Returned None.
Proof. reflexivity. Qed.

Example remove_demo_tree :
  remove demo_name "A" (demo_kernel demo_tree)
  = Returned (Some 0,
              mkKernelImpl IDLE [2; 1] [(2, ["A"]); (1, ["A"])] false,
              [(LOG_DEBUG, "Kernel::remove: module '%s' removed")]).
Proof. reflexivity. Qed.

Example run_demo_tree :
  trace (exec demo_name demo_sched
           ((demo_schedule 5 ++ [AStop]) ++ replicate 9 AWorker)
           (start_config (demo_kernel demo_tree)))
  = [Init 0; Init 2; Init 1; Halt 1; Halt 2; Halt 0].
Proof. reflexivity. Qed.

(** A kernel that already owns a thread object: the second
    [kernelThread.reset] destroys a joinable [std::thread]. *)
Example restart_demo :
  terminated (exec demo_name demo_sched [ACaller; ACaller]
                (start_config (mkKernelImpl IDLE [] [] true))) = true.
Proof. reflexivity. Qed.

(** ** The further properties on concrete registries *)

Lemma sort_true_iff_witness :
  names_unique demo_name demo_tree ∧
  ((∃ order, sort demo_name demo_sched demo_tree = Returned (Some order)) ↔
   resolved demo_name demo_tree ∧ acyclic demo_name demo_tree).
Proof.
  assert (H1 : names_unique demo_name demo_tree) by exact demo_tree_unique.
  split; [done|]. exact (sort_true_iff demo_name demo_sched demo_tree H1).
Defined.

Lemma createGraph_vertices_edges_witness :
  createGraph demo_name demo_tree
    = Returned (Some [mkVertex 0 [1; 2]; mkVertex 1 []; mkVertex 2 []]) ∧
  value <$> [mkVertex 0 [1; 2]; mkVertex 1 []; mkVertex 2 []] = demo_tree.*1 ∧
  edge_count [mkVertex 0 [1; 2]; mkVertex 1 []; mkVertex 2 []] = name_count demo_tree.
Proof.
  assert (H1 : createGraph demo_name demo_tree
                 = Returned (Some [mkVertex 0 [1; 2]; mkVertex 1 []; mkVertex 2 []]))
    by reflexivity.
  destruct (createGraph_vertices_edges demo_name demo_sched demo_tree _ H1) as (Hv & He & _).
  split_and!; done.
Defined.

Lemma add_then_find_witness :
  status (demo_kernel demo_tree) = IDLE ∧
  find demo_name (modules (demo_kernel demo_tree)) (demo_name 4) = None ∧
  ∃ p' log,
    add demo_name 4 ["Z"] (demo_kernel demo_tree) = (true, p', log) ∧
    modules p' = modules (demo_kernel demo_tree) ++ [4] ∧
    modulesAndDependencies p'
      = modulesAndDependencies (demo_kernel demo_tree) ++ [(4, ["Z"])] ∧
    ∀ n, find demo_name (modules p') n
         = if decide (n = demo_name 4) then Some 4
           else find demo_name (modules (demo_kernel demo_tree)) n.
Proof.
  assert (H1 : status (demo_kernel demo_tree) = IDLE) by reflexivity.
  assert (H2 : find demo_name (modules (demo_kernel demo_tree)) (demo_name 4) = None)
    by reflexivity.
  split_and!; [done..|].
  exact (add_then_find demo_name 4 ["Z"] (demo_kernel demo_tree) H1 H2).
Defined.

Lemma remove_then_find_witness :
  consistent (demo_kernel demo_tree) ∧
  names_unique demo_name (modulesAndDependencies (demo_kernel demo_tree)) ∧
  status (demo_kernel demo_tree) = IDLE ∧
  find demo_name (modules (demo_kernel demo_tree)) "A" = Some 0 ∧
  ∃ p' log,
    remove demo_name "A" (demo_kernel demo_tree) = Returned (Some 0, p', log) ∧
    find demo_name (modules p') "A" = None ∧
    ∀ n', n' ≠ "A" →
          find demo_name (modules p') n'
          = find demo_name (modules (demo_kernel demo_tree)) n'.
Proof.
  assert (H1 : consistent (demo_kernel demo_tree)) by reflexivity.
  assert (H2 : names_unique demo_name (modulesAndDependencies (demo_kernel demo_tree)))
    by exact demo_tree_unique.
  assert (H3 : status (demo_kernel demo_tree) = IDLE) by reflexivity.
  assert (H4 : find demo_name (modules (demo_kernel demo_tree)) "A" = Some 0)
    by reflexivity.
  split_and!; [done..|].
  exact (remove_then_find demo_name demo_sched "A" (demo_kernel demo_tree) 0 H1 H2 H3 H4).
Defined.

Lemma remove_takes_one_witness :
  consistent (demo_kernel demo_tree) ∧
  remove demo_name "A" (demo_kernel demo_tree)
    = Returned (Some 0,
                mkKernelImpl IDLE [2; 1] [(2, ["A"]); (1, ["A"])] false,
                [(LOG_DEBUG, "Kernel::remove: module '%s' removed")]) ∧
  demo_name 0 = "A" ∧
  modules (demo_kernel demo_tree) ≡ₚ [0; 2; 1].
Proof.
  assert (H1 : consistent (demo_kernel demo_tree)) by reflexivity.
  assert (H2 : remove demo_name "A" (demo_kernel demo_tree)
                 = Returned (Some 0,
                     mkKernelImpl IDLE [2; 1] [(2, ["A"]); (1, ["A"])] false,
                     [(LOG_DEBUG, "Kernel::remove: module '%s' removed")]))
    by reflexivity.
  destruct (remove_takes_one demo_name "A" (demo_kernel demo_tree) 0 _ _ H1 H2)
    as (Hn & Hperm & _).
  split_and!; done.
Defined.

Lemma remove_null_iff_witness :
  consistent (demo_kernel demo_tree) ∧
  ((∃ p' log, remove demo_name "Z" (demo_kernel demo_tree) = Returned (None, p', log)) ↔
   (status (demo_kernel demo_tree) ≠ IDLE
    ∨ find demo_name (modules (demo_kernel demo_tree)) "Z" = None)).
Proof.
  assert (H1 : consistent (demo_kernel demo_tree)) by reflexivity.
  split; [done|].
  exact (proj1 (remove_null_iff demo_name "Z" (demo_kernel demo_tree) H1)).
Defined.


Lemma add_then_remove_witness :
  consistent (demo_kernel demo_tree) ∧
  status (demo_kernel demo_tree) = IDLE ∧
  find demo_name (modules (demo_kernel demo_tree)) (demo_name 4) = None ∧
  ∃ log, remove demo_name (demo_name 4)
           (add demo_name 4 ["Z"] (demo_kernel demo_tree)).1.2
         = Returned (Some 4, demo_kernel demo_tree, log).
Proof.
  assert (H1 : consistent (demo_kernel demo_tree)) by reflexivity.
  assert (H2 : status (demo_kernel demo_tree) = IDLE) by reflexivity.
  assert (H3 : find demo_name (modules (demo_kernel demo_tree)) (demo_name 4) = None)
    by reflexivity.
  split_and!; [done..|].
  exact (add_then_remove demo_name 4 ["Z"] (demo_kernel demo_tree) H1 H2 H3).
Defined.

Lemma demo_schedule_quiet n : AStop ∉ demo_schedule n.
Proof.
  unfold demo_schedule. rewrite !not_elem_of_app. split_and!.
  - by apply (bool_decide_unpack _).
  - intros Hin. by apply elem_of_replicate in Hin as [? _].
  - by apply (bool_decide_unpack _).
Qed.

Lemma start_result_iff_witness :
  names_unique demo_name (modulesAndDependencies (demo_kernel demo_tree)) ∧
  start_returned (exec demo_name demo_sched (demo_schedule 5)
                    (start_config (demo_kernel demo_tree))) = Some true ∧
  (AStop ∉ demo_schedule 5) ∧
  resolved demo_name (modulesAndDependencies (demo_kernel demo_tree)) ∧
  acyclic demo_name (modulesAndDependencies (demo_kernel demo_tree)).
Proof.
  assert (H1 : names_unique demo_name (modulesAndDependencies (demo_kernel demo_tree)))
    by exact demo_tree_unique.
  assert (H2 : start_returned (exec demo_name demo_sched (demo_schedule 5)
                  (start_config (demo_kernel demo_tree))) = Some true)
    by (vm_compute; reflexivity).
  assert (H3 : AStop ∉ demo_schedule 5) by exact (demo_schedule_quiet 5).
  split_and!; [done..| |];
    apply (proj1 (start_result_iff demo_name demo_sched (demo_kernel demo_tree)
                    (demo_schedule 5) true H1 H2) eq_refl).
Defined.

Lemma no_halt_before_stop_witness :
  (AStop ∉ demo_schedule 5) ∧
  halts (trace (exec demo_name demo_sched (demo_schedule 5)
                  (start_config (demo_kernel demo_tree)))) = [].
Proof.
  assert (H1 : AStop ∉ demo_schedule 5) by exact (demo_schedule_quiet 5).
  split; [done|].
  exact (proj1 (no_halt_before_stop demo_name demo_sched (demo_kernel demo_tree)
                  (demo_schedule 5) H1)).
Defined.

Lemma status_after_start_witness :
  caller (exec demo_name demo_sched (demo_schedule 5 ++ [AStop])
            (start_config (demo_kernel demo_tree))) = CStopped true ∧
  status (impl (exec demo_name demo_sched (demo_schedule 5 ++ [AStop])
                  (start_config (demo_kernel demo_tree)))) = IDLE.
Proof.
  assert (H1 : caller (exec demo_name demo_sched (demo_schedule 5 ++ [AStop])
                  (start_config (demo_kernel demo_tree))) = CStopped true)
    by (vm_compute; reflexivity).
  split; [done|].
  exact (proj1 (proj2 (status_after_start demo_name demo_sched (demo_kernel demo_tree)
                         (demo_schedule 5 ++ [AStop]))) H1).
Defined.

Lemma hooks_in_phases_witness :
  kernelThread (demo_kernel demo_tree) = false ∧
  worker_exited (exec demo_name demo_sched
                   ((demo_schedule 5 ++ [AStop]) ++ replicate 9 AWorker)
                   (start_config (demo_kernel demo_tree))) ∧
  (trace (exec demo_name demo_sched
            ((demo_schedule 5 ++ [AStop]) ++ replicate 9 AWorker)
            (start_config (demo_kernel demo_tree))) = [] ∨
   ∃ order k,
     sort demo_name demo_sched (modulesAndDependencies (demo_kernel demo_tree))
       = Returned (Some order) ∧
     trace (exec demo_name demo_sched
              ((demo_schedule 5 ++ [AStop]) ++ replicate 9 AWorker)
              (start_config (demo_kernel demo_tree)))
     = (Init <$> order) ++ (Tick <$> passes k order) ++ (Halt <$> rev order)).
Proof.
  assert (H1 : kernelThread (demo_kernel demo_tree) = false) by reflexivity.
  assert (H2 : worker_exited (exec demo_name demo_sched
                   ((demo_schedule 5 ++ [AStop]) ++ replicate 9 AWorker)
                   (start_config (demo_kernel demo_tree)))).
  { exists (mkWorker WExit [0; 2; 1]). split; vm_compute; reflexivity. }
  split_and!; [done..|].
  exact (hooks_in_phases demo_name demo_sched (demo_kernel demo_tree) _ H1 H2).
Defined.

Lemma ticks_in_passes_witness :
  kernelThread (demo_kernel demo_tree) = false ∧
  worker (exec demo_name demo_sched (demo_schedule 5 ++ [AWorker; AWorker])
            (start_config (demo_kernel demo_tree)))
    = Some (mkWorker (WTick [2; 1]) [0; 2; 1]) ∧
  ∃ k dn,
    sort demo_name demo_sched (modulesAndDependencies (demo_kernel demo_tree))
      = Returned (Some (dn ++ [2; 1])) ∧
    trace (exec demo_name demo_sched (demo_schedule 5 ++ [AWorker; AWorker])
             (start_config (demo_kernel demo_tree)))
    = (Init <$> (dn ++ [2; 1])) ++ (Tick <$> (passes k (dn ++ [2; 1]) ++ dn)).
Proof.
  assert (H1 : kernelThread (demo_kernel demo_tree) = false) by reflexivity.
  assert (H2 : worker (exec demo_name demo_sched (demo_schedule 5 ++ [AWorker; AWorker])
                  (start_config (demo_kernel demo_tree)))
               = Some (mkWorker (WTick [2; 1]) [0; 2; 1]))
    by (vm_compute; reflexivity).
  split_and!; [done..|].
  exact (ticks_in_passes demo_name demo_sched (demo_kernel demo_tree) _ _ [2; 1]
           H1 H2 eq_refl).
Defined.

Lemma second_start_terminates_witness :
  kernelThread new_kernel = false ∧
  2 ≤ count_action ACaller [ACaller; ACaller] ∧
  kernelThread (impl (exec demo_name demo_sched [ACaller; ACaller]
                        (start_config new_kernel))) = true ∧
  terminated (exec demo_name demo_sched [ACaller; ACaller]
                (start_config (impl (exec demo_name demo_sched [ACaller; ACaller]
                                       (start_config new_kernel))))) = true.
Proof.
  assert (H1 : kernelThread new_kernel = false) by reflexivity.
  assert (H2 : 2 ≤ count_action ACaller [ACaller; ACaller]) by (vm_compute; lia).
  destruct (second_start_terminates demo_name demo_sched new_kernel
              [ACaller; ACaller] [ACaller; ACaller] H1 H2 H2) as [Hown Hterm].
  split_and!; done.
Defined.

Lemma first_start_rejects_cycle_witness :
  names_unique demo_name (modulesAndDependencies (demo_kernel demo_cycle)) ∧
  kernelThread (demo_kernel demo_cycle) = false ∧
  has_cycle demo_name (modulesAndDependencies (demo_kernel demo_cycle)) ∧
  trace (exec demo_name demo_sched (demo_schedule 4)
           (start_config (demo_kernel demo_cycle))) = [] ∧
  start_returned (exec demo_name demo_sched (demo_schedule 4)
                    (start_config (demo_kernel demo_cycle))) = Some false.
Proof.
  assert (H1 : names_unique demo_name (modulesAndDependencies (demo_kernel demo_cycle))).
  { unfold names_unique. apply (bool_decide_unpack _). by vm_compute. }
  assert (H2 : kernelThread (demo_kernel demo_cycle) = false) by reflexivity.
  assert (H3 : has_cycle demo_name (modulesAndDependencies (demo_kernel demo_cycle)))
    by exact demo_cycle_has_cycle.
  destruct (first_start_rejects_cycle demo_name demo_sched (demo_kernel demo_cycle)
              (demo_schedule 4) H1 H2 H3) as (Htr & _ & Hret).
  split_and!; [done..|]. apply Hret, (demo_schedule_fair 4).
Defined.

Lemma first_start_rejects_unknown_dependency_witness :
  kernelThread (demo_kernel demo_unknown) = false ∧
  unresolved demo_name (modulesAndDependencies (demo_kernel demo_unknown)) ∧
  trace (exec demo_name demo_sched (demo_schedule 3)
           (start_config (demo_kernel demo_unknown))) = [] ∧
  start_returned (exec demo_name demo_sched (demo_schedule 3)
                    (start_config (demo_kernel demo_unknown))) = Some false.
Proof.
  assert (H1 : kernelThread (demo_kernel demo_unknown) = false) by reflexivity.
  assert (H2 : unresolved demo_name (modulesAndDependencies (demo_kernel demo_unknown)))
    by exact demo_unknown_unresolved.
  destruct (first_start_rejects_unknown_dependency demo_name demo_sched
              (demo_kernel demo_unknown) (demo_schedule 3) H1 H2) as (Htr & _ & Hret).
  split_and!; [done..|]. apply Hret, (demo_schedule_fair 3).
Defined.

Lemma first_start_empty_registry_witness :
  modulesAndDependencies new_kernel = [] ∧
  kernelThread new_kernel = false ∧
  (AStop ∉ demo_schedule 2) ∧
  sort demo_name demo_sched (modulesAndDependencies new_kernel) = Returned (Some []) ∧
  trace (exec demo_name demo_sched (demo_schedule 2) (start_config new_kernel)) = [] ∧
  start_returned (exec demo_name demo_sched (demo_schedule 2) (start_config new_kernel))
    = Some true.
Proof.
  assert (H1 : modulesAndDependencies new_kernel = []) by reflexivity.
  assert (H2 : kernelThread new_kernel = false) by reflexivity.
  assert (H3 : AStop ∉ demo_schedule 2) by exact (demo_schedule_quiet 2).
  destruct (first_start_empty_registry demo_name demo_sched new_kernel
              (demo_schedule 2) H1 H2 H3) as (Hsort & Htr & _ & Hret).
  split_and!; [done..|]. apply Hret, (demo_schedule_fair 2).
Defined.

Lemma stop_during_start_lost_witness :
  kernelThread (demo_kernel demo_tree) = false ∧
  sort demo_name demo_sched (modulesAndDependencies (demo_kernel demo_tree))
    = Returned (Some [0; 2; 1]) ∧
  start_returned
    (exec demo_name demo_sched
       ([ACaller; ACaller; AStop; ACaller; ACaller; AWorker]
        ++ replicate (length [0; 2; 1]) AWorker ++ [AWorker])
       (start_config (demo_kernel demo_tree))) = Some false ∧
  status (impl
    (exec demo_name demo_sched
       ([ACaller; ACaller; AStop; ACaller; ACaller; AWorker]
        ++ replicate (length [0; 2; 1]) AWorker ++ [AWorker])
       (start_config (demo_kernel demo_tree)))) = RUNNING.
Proof.
  assert (H1 : kernelThread (demo_kernel demo_tree) = false) by reflexivity.
  assert (H2 : sort demo_name demo_sched (modulesAndDependencies (demo_kernel demo_tree))
               = Returned (Some [0; 2; 1])) by reflexivity.
  destruct (stop_during_start_lost demo_name demo_sched (demo_kernel demo_tree)
              [0; 2; 1] H1 H2) as (Hret & Hst & _).
  split_and!; done.
Defined.
